(** * The buffer stream bridge and the batch-buffer adapter

  A shallow embedding of

  - [internal/component/buffer] (the [Stream] type with its [inputLoop],
    [outputLoop] and [Consume]), and
  - [public/service/buffer.go] (the [airGapBatchBuffer] adapter),

  followed by the properties of these functions. *)

From Stdlib Require Import ZArith Lia.
From stdpp Require Import base option list strings.

Set Default Proof Using "Type".

(** ** Go errors *)

Module errors.

(** An error value that is not [nil], as the standard library builds it.
    The sentinels the two packages compare against are constructors of
    their own, so that [==] on them is the identity test of Go; [Opaque]
    stands for any other error without an [Unwrap] method, [Wrapped] for
    the result of [fmt.Errorf] with [%w].  Error types with an [Is] method
    of their own are not modelled. *)
Inductive err : Type :=
| ErrTypeClosed                       (* types.ErrTypeClosed *)
| ErrAlreadyStarted                   (* types.ErrAlreadyStarted *)
| ErrTimeout                          (* types.ErrTimeout *)
| ErrEndOfBuffer                      (* service.ErrEndOfBuffer *)
| Canceled                            (* context.Canceled *)
| Opaque (id : nat)
| Wrapped (msg : string) (inner : err).

(** The interface type [error]; [None] is [nil]. *)
Definition error : Type := option err.

#[export] Instance err_eq_dec : EqDecision err.
Proof. solve_decision. Defined.

(** [errors.Unwrap]. *)
Definition Unwrap (e : error) : error :=
  match e with
  | Some (Wrapped _ inner) => Some inner
  | _ => None
  end.

(** The loop of [errors.Is] for a target that is not [nil]: compare, then
    unwrap, until the chain ends. *)
Fixpoint Is_chain (e target : err) : bool :=
  if bool_decide (e = target) then true
  else match e with
       | Wrapped _ inner => Is_chain inner target
       | _ => false
       end.

(** [errors.Is]. *)
Definition Is (e target : error) : bool :=
  match target with
  | None => bool_decide (e = None)
  | Some t =>
      match e with
      | None => false
      | Some e' => Is_chain e' t
      end
  end.


End errors.
Export errors.

(** ** Contexts *)

Module context.

(** Modelled from the spec: the shutdown signaller ([internal/shutdown]) is
    not among the sources.  It gives "a way to derive a context/channel that
    cancels on drain-or-abort, a way to derive one that cancels only on
    abort"; a context is known here by how it was derived. *)
Inductive Context : Type :=
| Background
| CloseAtLeisureCtx (parent : Context)   (* cancelled on drain or abort *)
| CloseNowCtx (parent : Context).        (* cancelled on abort only *)

End context.

(** ** Messages *)

Module types.

(** [types.Part] is opaque to both files. *)
Class PartT : Type := { Part : Type }.

(** Modelled from the spec: [lib/types] and [lib/message] are not among the
    sources.  A message is "an ordered sequence of opaque message units":
    [types.Message] is the list of its parts in index order. *)
Definition Message `{PartT} : Type := list Part.

(** Modelled from the spec: [msg.Len()], the number of message units. *)
Definition Len `{PartT} (msg : Message) : nat := length msg.

(** Modelled from the spec: [msg.Iter(f)] visits "every message unit" of
    the message: it calls [f i part] for each part in index order and stops
    at the first error.  The variables the closure captures are the
    threaded state [s]. *)
Fixpoint Iter_from `{PartT} {S : Type} (i : nat)
    (f : nat -> Part -> S -> error * S) (msg : Message) (s : S) : error * S :=
  match msg with
  | [] => (None, s)
  | p :: rest =>
      match f i p s with
      | (Some e, s') => (Some e, s')
      | (None, s') => Iter_from (i + 1) f rest s'
      end
  end.

(** Modelled from the spec: [msg.Iter(f)] starts at index 0. *)
Definition Iter `{PartT} {S : Type}
    (f : nat -> Part -> S -> error * S) (msg : Message) (s : S) : error * S :=
  Iter_from 0 f msg s.

(** Modelled from the spec: [message.New(nil)], the message with no unit. *)
Definition New_nil `{PartT} : Message := [].

(** Modelled from the spec: [tMsg.Append(part)] adds a unit at the end
    ("concatenating message units in batch order"). *)
Definition Append `{PartT} (msg : Message) (p : Part) : Message := msg ++ [p].

End types.

Module response.

(** Modelled from the spec: [lib/response] is not among the sources.  A
    response carries the disposition of a transaction, [nil] or an error:
    [response.NewError(err)] builds it and [res.Error()] reads it. *)
Record Response : Type := NewError { Error : error }.

End response.

(** ** [internal/component/buffer]: the stream *)

Module throttle.

(** Modelled from the spec: the retry throttle ([lib/util/throttle]) is not
    among the sources.  It "maintains a monotonically-reset failure streak";
    [Retry] extends the streak and reports whether another attempt is
    permitted, [Reset] clears the streak.  Whether [Retry] permits the
    attempt depends on the ceiling, on the backoff and on the drain signal,
    so its answer is the environment's (see [buffer.Retry]). *)
Record Type_ : Type := New { failures : nat }.

(** Modelled from the spec: a failure extends the streak. *)
Definition note_failure (t : Type_) : Type_ := {| failures := S (failures t) |}.

(** Modelled from the spec: [Reset] clears the streak. *)
Definition Reset (t : Type_) : Type_ := {| failures := 0 |}.

End throttle.

Module buffer.

(** [AckFunc], [func(context.Context, error) error]. *)
Definition AckFunc : Type := context.Context -> error -> error.

(** A channel is known by its identity. *)
Definition chan : Type := nat.

Section stream.
Context `{types.PartT}.

(** The interface [ReaderWriter], over the state [R] of the implementation.
    A [nil] message or function is [None]; a call that does not return (it
    blocks for ever, or panics) is [None] as a whole. *)
Class ReaderWriter (R : Type) : Type := {
  Read : R -> context.Context ->
         option ((option types.Message * option AckFunc * error) * R);
  Write : R -> context.Context -> types.Message -> option (error * R);
  EndOfInput : R -> R;
  Close : R -> context.Context -> error * R
}.

(** Modelled from the spec: [types.Transaction] is "a pairing of one
    MessageBatch with a single-use response channel"; it is built by
    [types.NewTransaction]. *)
Record Transaction : Type := NewTransaction {
  Payload : types.Message;
  ResponseChan : chan
}.

(** What [m.buffer.Read] returns.  The loop looks at the message and at the
    function only when the error is [nil], and the interface promises both
    in that case. *)
Inductive ReadResult : Type :=
| ReadOk (msg : types.Message) (ackFunc : AckFunc)
| ReadErr (e : err).

(** The goroutines [Consume] starts. *)
Inductive goroutine : Type := GoInputLoop | GoOutputLoop | GoWaiter.

(** What a loop does to its surroundings, in the order it does it: channel
    operations, the shutdown signals it observes, and calls into the
    collaborators the stream is given (buffer, counters, timer, logger). *)
Inductive event : Type :=
| ERecvIn (tr : Transaction)            (* tr, open = <-m.messagesIn, open *)
| EInClosed                             (* <-m.messagesIn, !open *)
| ECloseAtLeisure                       (* <-m.shutSig.CloseAtLeisureChan() *)
| ECloseNow                             (* <-m.shutSig.CloseNowChan() *)
| EWrite (ctx : context.Context) (msg : types.Message)  (* m.buffer.Write is called *)
| EWriteRet (e : error)                 (* ... and returns *)
| ESendRes (c : chan) (res : response.Response)  (* tr.ResponseChan <- res *)
| EIncr (name : string) (n : Z)         (* GetCounter(name).Incr(n) *)
| ETiming (name : string) (since : types.Message)
    (* GetTimer(name).Timing(time.Since(since.CreatedAt()).Nanoseconds()) *)
| EErrorf (format : string) (arg : error)   (* m.log.Errorf *)
| ERead (ctx : context.Context)         (* m.buffer.Read is called *)
| EReadRet (r : ReadResult)             (* ... and returns *)
| ERetry                                (* m.errThrottle.Retry() is called *)
| ERetryRet (ok : bool)                 (* ... and returns *)
| EReset                                (* m.errThrottle.Reset() *)
| EMake (c : chan)                      (* make(chan types.Response, 1) *)
| ESendOut (tr : Transaction)           (* m.messagesOut <- tr *)
| ERecvRes (c : chan) (res : response.Response)  (* res, open := <-resChan, open *)
| EResClosed (c : chan)                 (* <-resChan, !open *)
| EAck (ackFunc : AckFunc) (ctx : context.Context) (e : error)
    (* ackFunc(ctx, e) *)
| ECtxDone                              (* done() *)
| EEndOfInput                           (* m.buffer.EndOfInput() *)
| EBufferClose (ctx : context.Context)  (* m.buffer.Close(ctx) *)
| ECloseOut                             (* close(m.messagesOut) *)
| EWGDone                               (* m.closedWG.Done() *)
| EGo (g : goroutine).                  (* go ... *)

(** What the surroundings do at a point where a loop waits: which case of a
    [select] becomes ready, what a call into the buffer returns. *)
Inductive answer : Type :=
| ARecv (tr : Transaction)      (* upstream sends tr *)
| AClosed                       (* the channel received from is closed *)
| AAtLeisure                    (* the drain signal is chosen *)
| ANow                          (* the abort signal is chosen *)
| ATaken                        (* the value the loop sends is received *)
| AWriteRet (e : error)
| AReadRet (r : ReadResult)
| ARetry (ok : bool)
| ARes (res : response.Response).   (* downstream responds *)

(** The fields of [Stream] that the methods assign or change.  [stats],
    [log], [buffer] and [shutSig] are collaborators: using them is an
    [event]. *)
Record Stream : Type := {
  typeStr : string;
  errThrottle : throttle.Type_;
  messagesIn : option chan;       (* nil until Consume *)
  closedWG : Z
}.

(** A stream in its surroundings: the answers still to come, the events so
    far, and the next channel [make] returns. *)
Record world : Type := {
  m : Stream;
  script : list answer;
  trace : list event;
  next_chan : chan
}.

Definition set_m (f : Stream -> Stream) (w : world) : world :=
  {| m := f (m w); script := script w; trace := trace w; next_chan := next_chan w |}.
Definition set_script (s : list answer) (w : world) : world :=
  {| m := m w; script := s; trace := trace w; next_chan := next_chan w |}.
Definition set_next_chan (c : chan) (w : world) : world :=
  {| m := m w; script := script w; trace := trace w; next_chan := c |}.
Definition log_event (e : event) (w : world) : world :=
  {| m := m w; script := script w; trace := trace w ++ [e]; next_chan := next_chan w |}.

(** *** The monad of a goroutine *)

(** A computation returns, or waits for ever ([Parked]: the answers ran
    out, or the next one is for another wait), or exhausts the fuel of
    [for_]. *)
Inductive outcome (A : Type) : Type :=
| Val (a : A)
| Parked
| OutOfFuel.
Arguments Val {A} a.
Arguments Parked {A}.
Arguments OutOfFuel {A}.

Definition M (A : Type) : Type := world -> outcome A * world.

Definition ret {A : Type} (a : A) : M A := fun w => (Val a, w).

Definition bind {A B : Type} (c : M A) (k : A -> M B) : M B := fun w =>
  match c w with
  | (Val a, w') => k a w'
  | (Parked, w') => (Parked, w')
  | (OutOfFuel, w') => (OutOfFuel, w')
  end.

(** The notations [x ← c; k] and [c;; k] of stdpp. *)
#[export] Instance M_ret : MRet M := @ret.
#[export] Instance M_bind : MBind M := fun A B k c => bind c k.

Definition emit (e : event) : M unit := fun w => (Val tt, log_event e w).

(** Wait for the next answer; [accept] says which answers end this wait. *)
Definition await {A : Type} (accept : answer -> option A) : M A := fun w =>
  match script w with
  | a :: rest =>
      match accept a with
      | Some x => (Val x, set_script rest w)
      | None => (Parked, w)
      end
  | [] => (Parked, w)
  end.

(** [continue] (or the end of the body) and [return] inside [for { ... }]. *)
Inductive ctl : Type := Continue | Return.

(** [for { body }]. *)
Fixpoint for_ (fuel : nat) (body : M ctl) : M unit := fun w =>
  match fuel with
  | 0 => (OutOfFuel, w)
  | S fuel' =>
      match body w with
      | (Val Continue, w') => for_ fuel' body w'
      | (Val Return, w') => (Val tt, w')
      | (Parked, w') => (Parked, w')
      | (OutOfFuel, w') => (OutOfFuel, w')
      end
  end.

(** *** Collaborators *)

Definition Incr (name : string) (n : Z) : M unit := emit (EIncr name n).
Definition Timing (name : string) (since : types.Message) : M unit :=
  emit (ETiming name since).
Definition Errorf (format : string) (arg : error) : M unit :=
  emit (EErrorf format arg).

Definition buffer_Write (ctx : context.Context) (msg : types.Message) : M error :=
  emit (EWrite ctx msg);;
  e ← await (fun a => match a with AWriteRet e => Some e | _ => None end);
  emit (EWriteRet e);;
  mret e.

Definition buffer_Read (ctx : context.Context) : M ReadResult :=
  emit (ERead ctx);;
  r ← await (fun a => match a with AReadRet r => Some r | _ => None end);
  emit (EReadRet r);;
  mret r.

Definition buffer_EndOfInput : M unit := emit EEndOfInput.
Definition buffer_Close (ctx : context.Context) : M unit := emit (EBufferClose ctx).

(** Assigning to the state of [m.errThrottle]. *)
Definition set_errThrottle (f : throttle.Type_ -> throttle.Type_) : M unit := fun w =>
  (Val tt, set_m (fun s =>
     {| typeStr := typeStr s; errThrottle := f (errThrottle s);
        messagesIn := messagesIn s; closedWG := closedWG s |}) w).

(** Modelled from the spec: [m.errThrottle.Retry()] extends the failure
    streak, waits, and reports whether to try again; the report is the
    environment's. *)
Definition Retry : M bool :=
  emit ERetry;;
  set_errThrottle throttle.note_failure;;
  ok ← await (fun a => match a with ARetry ok => Some ok | _ => None end);
  emit (ERetryRet ok);;
  mret ok.

(** Modelled from the spec: [m.errThrottle.Reset()]. *)
Definition Reset : M unit :=
  emit EReset;;
  set_errThrottle throttle.Reset.

(** [m.closedWG.Add(n)] and [m.closedWG.Done()]. *)
Definition closedWG_Add (n : Z) : M unit := fun w =>
  (Val tt, set_m (fun s =>
     {| typeStr := typeStr s; errThrottle := errThrottle s;
        messagesIn := messagesIn s; closedWG := (closedWG s + n)%Z |}) w).

Definition closedWG_Done : M unit := closedWG_Add (-1);; emit EWGDone.

(** [make(chan types.Response, 1)]. *)
Definition make_chan : M chan := fun w =>
  let c := next_chan w in
  (Val c, log_event (EMake c) (set_next_chan (S c) w)).

(** Modelled from the spec: tracing span propagation is an external
    collaborator.  [tracing.WithSiblingSpans], [tracing.InitSpans] and
    [tracing.FinishSpans] act on the spans a message carries, which
    [types.Message] does not show here, so the first returns its message
    and the calls of the other two leave no event. *)
Definition WithSiblingSpans (operationName : string) (msg : types.Message)
  : types.Message := msg.

(** The contexts the loops derive from the signaller:
    [m.shutSig.CloseAtLeisureCtx(context.Background())] in [inputLoop],
    [m.shutSig.CloseNowCtx(context.Background())] in [outputLoop]. *)
Definition closeAtLeisureCtx : context.Context :=
  context.CloseAtLeisureCtx context.Background.
Definition closeNowCtx : context.Context :=
  context.CloseNowCtx context.Background.

(** *** [inputLoop] *)

(** The cases of the first [select] of [inputLoop]. *)
Inductive in_case : Type :=
| InRecv (tr : Transaction)     (* case tr, open = <-m.messagesIn, open *)
| InClosed                      (* the same case, !open *)
| InAtLeisure.                  (* case <-m.shutSig.CloseAtLeisureChan() *)

Definition select_in : M in_case :=
  c ← await (fun a => match a with
                      | ARecv tr => Some (InRecv tr)
                      | AClosed => Some InClosed
                      | AAtLeisure => Some InAtLeisure
                      | _ => None
                      end);
  emit (match c with
        | InRecv tr => ERecvIn tr
        | InClosed => EInClosed
        | InAtLeisure => ECloseAtLeisure
        end);;
  mret c.

(** A [select] between a send and [<-m.shutSig.CloseNowChan()]: [true]
    when the send is chosen. *)
Definition select_send_or_now (send : event) : M bool :=
  sent ← await (fun a => match a with
                         | ATaken => Some true
                         | ANow => Some false
                         | _ => None
                         end);
  emit (match sent with true => send | false => ECloseNow end);;
  mret sent.

Definition get_typeStr : M string := fun w => (Val (typeStr (m w)), w).

(** The body of the [for] of [inputLoop]. *)
Definition inputLoop_body (ctx : context.Context) : M ctl :=
  c ← select_in;
  match c with
  | InClosed => mret Return
  | InAtLeisure => mret Return
  | InRecv tr =>
      tS ← get_typeStr;
      e ← buffer_Write ctx (WithSiblingSpans tS (Payload tr));
      match e with
      | None => Incr "write.count" 1
      | Some _ => Incr "write.error" 1
      end;;
      sent ← select_send_or_now (ESendRes (ResponseChan tr) (response.NewError e));
      match sent with
      | true => mret Continue
      | false => mret Return
      end
  end.

(** [inputLoop]: the deferred calls run when the loop returns, the last
    deferred first.  A body that goes round again has taken an answer, so
    the loop ends within as many rounds as there are answers. *)
Definition inputLoop : M unit := fun w =>
  (for_ (S (length (script w))) (inputLoop_body closeAtLeisureCtx);;
   emit ECtxDone;;
   buffer_EndOfInput;;
   closedWG_Done) w.

(** *** [outputLoop] *)

(** The cases of the last [select] of [outputLoop]. *)
Inductive res_case : Type :=
| ResRecv (res : response.Response)   (* case res, open := <-resChan, open *)
| ResClosed                           (* the same case, !open *)
| ResNow.                             (* case <-m.shutSig.CloseNowChan() *)

Definition select_res (resChan : chan) : M res_case :=
  c ← await (fun a => match a with
                      | ARes res => Some (ResRecv res)
                      | AClosed => Some ResClosed
                      | ANow => Some ResNow
                      | _ => None
                      end);
  emit (match c with
        | ResRecv res => ERecvRes resChan res
        | ResClosed => EResClosed resChan
        | ResNow => ECloseNow
        end);;
  mret c.

(** Calling an [AckFunc]. *)
Definition call_ack (ackFunc : AckFunc) (ctx : context.Context) (e : error) : M error :=
  emit (EAck ackFunc ctx e);;
  mret (ackFunc ctx e).

(** The body of the [for] of [outputLoop]. *)
Definition outputLoop_body (ctx : context.Context) : M ctl :=
  r ← buffer_Read ctx;
  match r with
  | ReadErr e =>
      if negb (bool_decide (e = ErrTypeClosed))
         && negb (errors.Is (Some e) (Some Canceled))
      then
        Incr "read.error" 1;;
        Errorf "Failed to read buffer: %v\n" (Some e);;
        ok ← Retry;
        match ok with
        | false => mret Return
        | true => mret Continue
        end
      else
        mret Return
  | ReadOk msg ackFunc =>
      Incr "read.count" 1;;
      Reset;;
      resChan ← make_chan;
      sent ← select_send_or_now (ESendOut (NewTransaction msg resChan));
      match sent with
      | false => mret Return
      | true =>
          c ← select_res resChan;
          match c with
          | ResClosed => mret Return
          | ResNow => mret Return
          | ResRecv res =>
              match response.Error res with
              | Some _ =>
                  Incr "send.success" 1;;
                  Timing "latency" msg
              | None =>
                  Incr "send.error" 1
              end;;
              ackErr ← call_ack ackFunc ctx (response.Error res);
              match ackErr with
              | Some ae =>
                  Incr "ack.error" 1;;
                  if negb (bool_decide (ae = ErrTypeClosed))
                  then Errorf "Failed to ack buffer message: %v\n" ackErr
                  else mret tt
              | None => mret tt
              end;;
              mret Continue
          end
      end
  end.

(** [outputLoop]; every round that goes round again has taken the answer to
    its [Read]. *)
Definition outputLoop : M unit := fun w =>
  (for_ (S (length (script w))) (outputLoop_body closeNowCtx);;
   emit ECtxDone;;
   buffer_Close context.Background;;
   emit ECloseOut;;
   closedWG_Done) w.

(** *** [Consume] *)

Definition set_messagesIn (msgs : option chan) : M unit := fun w =>
  (Val tt, set_m (fun s =>
     {| typeStr := typeStr s; errThrottle := errThrottle s;
        messagesIn := msgs; closedWG := closedWG s |}) w).

(** [Consume]; a [nil] channel is [None]. *)
Definition Consume (msgs : option chan) : M error := fun w =>
  match messagesIn (m w) with
  | Some _ => (Val (Some ErrAlreadyStarted), w)
  | None =>
      (set_messagesIn msgs;;
       closedWG_Add 2;;
       emit (EGo GoInputLoop);;
       emit (EGo GoOutputLoop);;
       emit (EGo GoWaiter);;
       mret None) w
  end.

End stream.

Arguments Val {A} a.
Arguments Parked {A}.
Arguments OutOfFuel {A}.

End buffer.

(** ** [public/service/buffer.go] *)

Module service.

(** [service.Message] has the field [part]; [newMessageFromPart] and [Copy]
    are declared in another file of the package and are taken as they
    are. *)
Class MessageT `{types.PartT} : Type := {
  Message : Type;
  part : Message -> types.Part;
  newMessageFromPart : types.Part -> Message;
  Copy : Message -> Message
}.

(** [MessageBatch] is [[]*Message]; a [nil] pointer is [None]. *)
Definition MessageBatch `{MessageT} : Type := list (option Message).

(** [service.AckFunc]. *)
Definition AckFunc : Type := context.Context -> error -> error.

(** The interface [BatchBuffer], over the state [B] of the
    implementation; a call that does not return is [None]. *)
Class BatchBuffer `{MessageT} (B : Type) : Type := {
  WriteBatch : B -> context.Context -> MessageBatch -> option (error * B);
  ReadBatch : B -> context.Context -> option ((MessageBatch * AckFunc * error) * B);
  EndOfInput : B -> B;
  Close : B -> context.Context -> error * B
}.

Section airGap.
Context `{MessageT} {B : Type} `{!BatchBuffer B}.

(** [airGapBatchBuffer]; its methods never use the signaller field. *)
Record airGapBatchBuffer : Type := { b : B }.

Definition newAirGapBatchBuffer (b0 : B) : airGapBatchBuffer := {| b := b0 |}.

(** [newMessageFromPart(part).Copy()], as a pointer. *)
Definition copied (p : types.Part) : option Message :=
  Some (Copy (newMessageFromPart p)).

(** The closure [Write] gives to [msg.Iter]; it assigns [parts[i]]. *)
Definition Write_closure (i : nat) (p : types.Part) (parts : MessageBatch)
  : error * MessageBatch :=
  (None, <[i := copied p]> parts).

(** The slice [parts] of [Write] as it is when [WriteBatch] is called. *)
Definition Write_parts (msg : types.Message) : MessageBatch :=
  let parts := replicate (types.Len msg) None in
  snd (types.Iter Write_closure msg parts).

Definition Write (a : airGapBatchBuffer) (ctx : context.Context)
    (msg : types.Message) : option (error * airGapBatchBuffer) :=
  match WriteBatch (b a) ctx (Write_parts msg) with
  | Some (e, b') => Some (e, {| b := b' |})
  | None => None
  end.

(** The [range] loop of [Read]; [msg.part] on a [nil] pointer panics, which
    is [None]. *)
Fixpoint Read_append (tMsg : types.Message) (batch : MessageBatch)
  : option types.Message :=
  match batch with
  | [] => Some tMsg
  | Some msg :: rest => Read_append (types.Append tMsg (part msg)) rest
  | None :: _ => None
  end.

Definition Read (a : airGapBatchBuffer) (ctx : context.Context)
  : option ((option types.Message * option buffer.AckFunc * error)
            * airGapBatchBuffer) :=
  match ReadBatch (b a) ctx with
  | None => None
  | Some ((batch, ackFn, err), b') =>
      match err with
      | Some _ =>
          let err' := if errors.Is err (Some ErrEndOfBuffer)
                      then Some ErrTypeClosed else err in
          Some ((None, None, err'), {| b := b' |})
      | None =>
          match Read_append types.New_nil batch with
          | Some tMsg =>
              Some ((Some tMsg, Some (fun c aerr => ackFn c aerr), None),
                    {| b := b' |})
          | None => None
          end
      end
  end.

Definition airGap_EndOfInput (a : airGapBatchBuffer) : airGapBatchBuffer :=
  {| b := EndOfInput (b a) |}.

Definition airGap_Close (a : airGapBatchBuffer) (ctx : context.Context)
  : error * airGapBatchBuffer :=
  let '(e, b') := Close (b a) ctx in (e, {| b := b' |}).

(** [airGapBatchBuffer] implements [buffer.ReaderWriter]. *)
#[export] Instance airGap_ReaderWriter : buffer.ReaderWriter airGapBatchBuffer := {|
  buffer.Read := Read;
  buffer.Write := Write;
  buffer.EndOfInput := airGap_EndOfInput;
  buffer.Close := airGap_Close
|}.

End airGap.

Arguments airGapBatchBuffer : clear implicits.

End service.

(** ** Runs of the loops *)

Module runs.
Import buffer.

Section runs.
Context `{types.PartT}.

(** What a computation returns from a world, and the events it adds to the
    trace of that world. *)
Definition result {A : Type} (c : M A) (w : world) : outcome A := fst (c w).
Definition final {A : Type} (c : M A) (w : world) : world := snd (c w).
Definition events {A : Type} (c : M A) (w : world) : list event :=
  drop (length (trace w)) (trace (final c w)).

(** The events of a loop are those of its rounds, one round after the
    other, and then those of the deferred calls [d] when the function
    returns; [R t o] says that [t] with outcome [o] is one round. *)
Inductive loop_run (R : list event -> outcome ctl -> Prop) (d : list event)
  : list event -> outcome unit -> Prop :=
| loop_return t : R t (Val Return) -> loop_run R d (t ++ d) (Val tt)
| loop_parked t : R t Parked -> loop_run R d t Parked
| loop_continue t t' o :
    R t (Val Continue) -> loop_run R d t' o -> loop_run R d (t ++ t') o.

(** *** The rounds of [inputLoop] *)

(** The counter a write outcome goes to. *)
Definition write_counter (e : error) : string :=
  match e with None => "write.count" | Some _ => "write.error" end.

(** A transaction is received and its batch written, with outcome [e]. *)
Definition in_written (tr : Transaction) (e : error) : list event :=
  [ERecvIn tr; EWrite closeAtLeisureCtx (Payload tr); EWriteRet e;
   EIncr (write_counter e) 1].

Inductive in_round : list event -> outcome ctl -> Prop :=
| in_waiting : in_round [] Parked
| in_closed : in_round [EInClosed] (Val Return)
| in_leisure : in_round [ECloseAtLeisure] (Val Return)
| in_writing tr :
    in_round [ERecvIn tr; EWrite closeAtLeisureCtx (Payload tr)] Parked
| in_responding tr e : in_round (in_written tr e) Parked
| in_abort tr e : in_round (in_written tr e ++ [ECloseNow]) (Val Return)
| in_sent tr e :
    in_round (in_written tr e
              ++ [ESendRes (ResponseChan tr) (response.NewError e)])
             (Val Continue).

(** The deferred calls of [inputLoop]. *)
Definition in_deferred : list event := [ECtxDone; EEndOfInput; EWGDone].

(** The events with which a round of [inputLoop] starts. *)
Definition in_select (ev : event) : bool :=
  match ev with
  | ERecvIn _ | EInClosed | ECloseAtLeisure => true
  | _ => false
  end.


Definition is_deferred (ev : event) : bool :=
  match ev with
  | ECtxDone | EEndOfInput | EBufferClose _ | ECloseOut | EWGDone => true
  | _ => false
  end.

(** [rest] is where a loop is back at the top of its [for]: nothing more
    happened, or the next event starts a round. *)
Definition at_top (starts : event -> bool) (rest : list event) : Prop :=
  match rest with
  | [] => True
  | ev :: _ => starts ev = true
  end.

(** *** The rounds of [outputLoop] *)

(** The test of [outputLoop] on an error of [Read]:
    [err != types.ErrTypeClosed && !errors.Is(err, context.Canceled)]. *)
Definition transient (e : err) : bool :=
  negb (bool_decide (e = ErrTypeClosed))
  && negb (errors.Is (Some e) (Some Canceled)).

Definition out_read_err (e : err) : list event :=
  [ERead closeNowCtx; EReadRet (ReadErr e)].

(** A failed read is counted and logged, and the throttle asked. *)
Definition out_failed (e : err) : list event :=
  out_read_err e
  ++ [EIncr "read.error" 1; EErrorf "Failed to read buffer: %v\n" (Some e);
      ERetry].

(** A read succeeds and its transaction is made. *)
Definition out_read_ok (msg : types.Message) (ackFunc : AckFunc) (c : chan)
  : list event :=
  [ERead closeNowCtx; EReadRet (ReadOk msg ackFunc); EIncr "read.count" 1;
   EReset; EMake c].

(** What [outputLoop] records when the response [res] to [msg] arrives. *)
Definition send_metrics (res : response.Response) (msg : types.Message)
  : list event :=
  match response.Error res with
  | Some _ => [EIncr "send.success" 1; ETiming "latency" msg]
  | None => [EIncr "send.error" 1]
  end.

(** What [outputLoop] records about the error an [AckFunc] returns. *)
Definition ack_metrics (ackErr : error) : list event :=
  match ackErr with
  | Some ae =>
      EIncr "ack.error" 1
      :: (if bool_decide (ae = ErrTypeClosed) then []
          else [EErrorf "Failed to ack buffer message: %v\n" ackErr])
  | None => []
  end.

(** The events from the response to the end of the round. *)
Definition out_responded (msg : types.Message) (ackFunc : AckFunc) (c : chan)
    (res : response.Response) : list event :=
  ERecvRes c res :: send_metrics res msg
  ++ EAck ackFunc closeNowCtx (response.Error res)
  :: ack_metrics (ackFunc closeNowCtx (response.Error res)).

Inductive out_round : list event -> outcome ctl -> Prop :=
| out_reading : out_round [ERead closeNowCtx] Parked
| out_quiet e :
    transient e = false -> out_round (out_read_err e) (Val Return)
| out_throttled e :
    transient e = true -> out_round (out_failed e) Parked
| out_stop e :
    transient e = true ->
    out_round (out_failed e ++ [ERetryRet false]) (Val Return)
| out_retry e :
    transient e = true ->
    out_round (out_failed e ++ [ERetryRet true]) (Val Continue)
| out_offering msg ackFunc c : out_round (out_read_ok msg ackFunc c) Parked
| out_offer_abort msg ackFunc c :
    out_round (out_read_ok msg ackFunc c ++ [ECloseNow]) (Val Return)
| out_awaiting msg ackFunc c :
    out_round (out_read_ok msg ackFunc c
               ++ [ESendOut (NewTransaction msg c)]) Parked
| out_await_abort msg ackFunc c :
    out_round (out_read_ok msg ackFunc c
               ++ [ESendOut (NewTransaction msg c); ECloseNow]) (Val Return)
| out_await_closed msg ackFunc c :
    out_round (out_read_ok msg ackFunc c
               ++ [ESendOut (NewTransaction msg c); EResClosed c])
              (Val Return)
| out_acked msg ackFunc c res :
    out_round (out_read_ok msg ackFunc c
               ++ ESendOut (NewTransaction msg c)
               :: out_responded msg ackFunc c res)
              (Val Continue).

(** The deferred calls of [outputLoop]. *)
Definition out_deferred : list event :=
  [ECtxDone; EBufferClose context.Background; ECloseOut; EWGDone].

(** A round of [outputLoop] starts with the call of [Read]. *)
Definition out_start (ev : event) : bool :=
  match ev with ERead _ => true | _ => false end.

(** *** Counting *)

(** The number of events that satisfy [p]. *)
Fixpoint count (p : event -> bool) (t : list event) : nat :=
  match t with
  | [] => 0
  | ev :: t' => (if p ev then 1 else 0) + count p t'
  end.

(** The value a counter has after [t], from zero. *)
Fixpoint counter (name : string) (t : list event) : Z :=
  match t with
  | [] => 0
  | EIncr name' n :: t' =>
      (if bool_decide (name' = name) then n else 0) + counter name t'
  | _ :: t' => counter name t'
  end.

(** The failure streak of the throttle after [t], from [n]: a call of
    [Retry] extends it, a call of [Reset] clears it. *)
Fixpoint streak (n : nat) (t : list event) : nat :=
  match t with
  | [] => n
  | ERetry :: t' => streak (S n) t'
  | EReset :: t' => streak 0 t'
  | _ :: t' => streak n t'
  end.

Definition is_write_call (ev : event) : bool :=
  match ev with EWrite _ _ => true | _ => false end.
Definition is_write_ok (ev : event) : bool :=
  match ev with EWriteRet None => true | _ => false end.
Definition is_write_err (ev : event) : bool :=
  match ev with EWriteRet (Some _) => true | _ => false end.
Definition is_read_call (ev : event) : bool :=
  match ev with ERead _ => true | _ => false end.
Definition is_read_ok (ev : event) : bool :=
  match ev with EReadRet (ReadOk _ _) => true | _ => false end.
Definition is_read_transient (ev : event) : bool :=
  match ev with EReadRet (ReadErr e) => transient e | _ => false end.
Definition is_read_quiet (ev : event) : bool :=
  match ev with EReadRet (ReadErr e) => negb (transient e) | _ => false end.

Definition is_ack (ev : event) : bool :=
  match ev with EAck _ _ _ => true | _ => false end.
Definition is_wg_done (ev : event) : bool :=
  match ev with EWGDone => true | _ => false end.
Definition is_timing (ev : event) : bool :=
  match ev with ETiming _ _ => true | _ => false end.


(** *** What a loop body owes to [for_] *)

(** Every round of [body] is one of [R], leaves the wait group alone, moves
    the throttle as its events say, and takes an answer when it asks for
    another round. *)
Definition round_ok (R : list event -> outcome ctl -> Prop) (body : M ctl)
  : Prop :=
  forall w, exists t,
    trace (final body w) = trace w ++ t /\
    R t (result body w) /\
    closedWG (m (final body w)) = closedWG (m w) /\
    throttle.failures (errThrottle (m (final body w)))
    = streak (throttle.failures (errThrottle (m w))) t /\
    (result body w = Val Continue ->
     length (script (final body w)) < length (script w)).

Definition never_out (R : list event -> outcome ctl -> Prop) : Prop :=
  forall t, ~ R t OutOfFuel.

(** *** Calling [Consume] again and again *)

Fixpoint Consume_all (calls : list (option chan)) : M (list error) :=
  match calls with
  | [] => mret []
  | msgs :: rest =>
      e ← Consume msgs;
      es ← Consume_all rest;
      mret (e :: es)
  end.

End runs.
End runs.

(** ** Concrete streams and buffers *)

Module examples.
Import buffer runs.

(** Parts are numbers; a [service.Message] is a part with the mark of a
    copy. *)
#[export] Instance nat_part : types.PartT := {| types.Part := nat |}.

#[export] Instance marked_message : service.MessageT := {|
  service.Message := nat * bool;
  service.part := fst;
  service.newMessageFromPart := fun p => (p, false);
  service.Copy := fun msg => (fst msg, true)
|}.

(** A batch buffer whose reads are laid down in advance and whose writes
    are kept. *)
Record scripted : Type := {
  reads : list (service.MessageBatch * service.AckFunc * error);
  written : list service.MessageBatch
}.

#[export] Instance scripted_buffer : service.BatchBuffer scripted := {|
  service.WriteBatch := fun st _ batch =>
    Some (None, {| reads := reads st; written := written st ++ [batch] |});
  service.ReadBatch := fun st _ =>
    match reads st with
    | r :: rest => Some (r, {| reads := rest; written := written st |})
    | [] => None
    end;
  service.EndOfInput := fun st => st;
  service.Close := fun st _ => (None, st)
|}.

(** An [AckFunc] that hands back what it is given. *)
Definition echo : AckFunc := fun _ e => e.

(** A started stream with the answers [s] to come. *)
Definition started (s : list answer) : world :=
  {| m := {| typeStr := "memory"; errThrottle := throttle.New 0;
             messagesIn := Some 1; closedWG := 2 |};
     script := s; trace := []; next_chan := 100 |}.

(** A stream before [Consume]. *)
Definition fresh : world :=
  {| m := {| typeStr := "memory"; errThrottle := throttle.New 0;
             messagesIn := None; closedWG := 0 |};
     script := []; trace := []; next_chan := 100 |}.

Definition tr_a : Transaction := NewTransaction [1; 2] 7.
Definition tr_b : Transaction := NewTransaction [3] 8.

(** Upstream sends two transactions; the first write succeeds, the second
    fails; both responses are taken; upstream closes. *)
Definition two_writes : world :=
  started [ARecv tr_a; AWriteRet None; ATaken;
           ARecv tr_b; AWriteRet (Some (Opaque 1)); ATaken; AClosed].

(** One write fails, then upstream closes. *)
Definition failed_write : world :=
  started [ARecv tr_a; AWriteRet (Some (Opaque 1)); ATaken; AClosed].

(** A read fails once and is retried; the next read succeeds, downstream
    takes the transaction and reports [res]; then the buffer is closed. *)
Definition read_retry_deliver (res : response.Response) : world :=
  started [AReadRet (ReadErr (Opaque 3)); ARetry true;
           AReadRet (ReadOk [5] echo); ATaken; ARes res;
           AReadRet (ReadErr ErrTypeClosed)].

(** A read fails with an error that wraps [ErrTypeClosed]; the throttle
    stops the loop. *)
Definition wrapped_closed : err := Wrapped "buffer" ErrTypeClosed.
Definition read_wrapped_closed : world :=
  started [AReadRet (ReadErr wrapped_closed); ARetry false].

(** The same run with a delivery that fails downstream, and with one that
    succeeds. *)
Definition deliver_failed : world :=
  read_retry_deliver (response.NewError (Some (Opaque 2))).
Definition deliver_ok : world := read_retry_deliver (response.NewError None).

(** The transaction [outputLoop] makes of the message read in these runs. *)
Definition tr_out : Transaction := NewTransaction [5] 100.

(** A batch buffer whose next read fails with an error that wraps
    [ErrEndOfBuffer]. *)
Definition at_end : service.airGapBatchBuffer scripted :=
  service.newAirGapBatchBuffer
    {| reads := [([], echo, Some (Wrapped "disk" ErrEndOfBuffer))];
       written := [] |}.

End examples.


(** ** The rest of the two files *)

Module lifecycle.
Import buffer runs.

#[export] Instance Context_eq_dec : EqDecision context.Context.
Proof. solve_decision. Defined.

Section lifecycle.
Context `{types.PartT}.

(** [NewStream]: the fields of a new [Stream].  The zero value of
    [closedWG] is a wait group that nobody waits for, and [messagesIn] is
    [nil]. *)
Definition NewStream (typeStr0 : string) : Stream :=
  {| typeStr := typeStr0; errThrottle := throttle.New 0;
     messagesIn := None; closedWG := 0 |}.

(** A new stream in its surroundings, with nothing done yet. *)
Definition new_world (typeStr0 : string) : world :=
  {| m := NewStream typeStr0; script := []; trace := []; next_chan := 0 |}.

(** [m.closedWG.Wait()]: returns when the counter is zero and waits
    otherwise. *)
Definition closedWG_Wait : M unit := fun w =>
  if bool_decide (closedWG (m w) = 0%Z) then (Val tt, w) else (Parked, w).

(** The third goroutine of [Consume]: it waits for the two loops and then
    calls [m.shutSig.ShutdownComplete()]; it returns exactly when it has made
    that call. *)
Definition waiter : M unit := closedWG_Wait.

(** Whether a goroutine has returned. *)
Definition returned {A : Type} (o : outcome A) : bool :=
  match o with Val _ => true | _ => false end.

(** A goroutine run against the answers [s] that are meant for it. *)
Definition against {A : Type} (s : list answer) (c : M A) : M A :=
  fun w => c (set_script s w).

(** The stream after [Consume msgs], after [inputLoop] has run against
    [s_in] and [outputLoop] against [s_out]. *)
Definition after_loops (msgs : chan) (s_in s_out : list answer) (w : world)
  : world :=
  final (against s_out outputLoop)
    (final (against s_in inputLoop) (final (Consume (Some msgs)) w)).

(** *** Kinds of events *)

Definition is_recv_in (ev : event) : bool :=
  match ev with ERecvIn _ => true | _ => false end.
Definition is_send_res (ev : event) : bool :=
  match ev with ESendRes _ _ => true | _ => false end.
Definition is_close_now (ev : event) : bool :=
  match ev with ECloseNow => true | _ => false end.
Definition is_send_out (ev : event) : bool :=
  match ev with ESendOut _ => true | _ => false end.
Definition is_recv_res (ev : event) : bool :=
  match ev with ERecvRes _ _ => true | _ => false end.
Definition is_retry (ev : event) : bool :=
  match ev with ERetry => true | _ => false end.
Definition is_buffer_close (ev : event) : bool :=
  match ev with EBufferClose _ => true | _ => false end.
Definition is_close_out (ev : event) : bool :=
  match ev with ECloseOut => true | _ => false end.
Definition is_errorf (ev : event) : bool :=
  match ev with EErrorf _ _ => true | _ => false end.

(** A call of an [AckFunc] that returns an error. *)
Definition is_ack_failed (ev : event) : bool :=
  match ev with
  | EAck ackFunc ctx e => bool_decide (is_Some (ackFunc ctx e))
  | _ => false
  end.

(** The events [inputLoop] may leave: the cases of its two [select]s, the
    calls of [Write] with the drain context, the two write counters, the
    responses, and its deferred calls. *)
Definition input_event (ev : event) : bool :=
  match ev with
  | ERecvIn _ | EInClosed | ECloseAtLeisure | ECloseNow => true
  | EWrite ctx _ => bool_decide (ctx = closeAtLeisureCtx)
  | EWriteRet _ | ESendRes _ _ => true
  | EIncr name n =>
      (bool_decide (name = "write.count") || bool_decide (name = "write.error"))
      && bool_decide (n = 1%Z)
  | ECtxDone | EEndOfInput | EWGDone => true
  | _ => false
  end.

(** The events [outputLoop] may leave: the calls of [Read] and of an
    [AckFunc] with the abort context, the throttle, its counters, timer
    and log lines, the channel it makes, what it sends and receives, the
    abort signal, and its deferred calls with [Close] on the background
    context. *)
Definition output_event (ev : event) : bool :=
  match ev with
  | ERead ctx => bool_decide (ctx = closeNowCtx)
  | EReadRet _ | ERetry | ERetryRet _ | EReset | EMake _ => true
  | ESendOut _ | ERecvRes _ _ | EResClosed _ | ECloseNow => true
  | EAck _ ctx _ => bool_decide (ctx = closeNowCtx)
  | EIncr name n =>
      (bool_decide (name = "read.count") || bool_decide (name = "read.error")
       || bool_decide (name = "send.success")
       || bool_decide (name = "send.error")
       || bool_decide (name = "ack.error"))
      && bool_decide (n = 1%Z)
  | ETiming name _ => bool_decide (name = "latency")
  | EErrorf format _ =>
      bool_decide (format = "Failed to read buffer: %v\n")
      || bool_decide (format = "Failed to ack buffer message: %v\n")
  | ECtxDone | ECloseOut | EWGDone => true
  | EBufferClose ctx => bool_decide (ctx = context.Background)
  | _ => false
  end.

(** The events by which [outputLoop] leaves its [for]: a read error that
    is [ErrTypeClosed] or a cancellation, the throttle saying stop, the
    abort signal, the response channel closed. *)
Definition out_cause (ev : event) : bool :=
  match ev with
  | EReadRet (ReadErr e) => negb (transient e)
  | ERetryRet false | ECloseNow | EResClosed _ => true
  | _ => false
  end.

Definition out_quiet (ev : event) : bool :=
  negb (out_cause ev || is_deferred ev).

(** What [buffer.ReaderWriter.Read] returns, as an answer to
    [outputLoop]; a result outside the contract of the interface (no error
    and a [nil] message or function) is none. *)
Definition as_answer
    (r : option types.Message * option AckFunc * error) : option answer :=
  match r with
  | (_, _, Some e) => Some (AReadRet (ReadErr e))
  | (Some msg, Some ackFunc, None) => Some (AReadRet (ReadOk msg ackFunc))
  | _ => None
  end.

End lifecycle.
End lifecycle.

(** More concrete runs. *)
Module examples2.
Import buffer runs lifecycle examples.

(** Two messages, and a batch that holds a [nil] pointer. *)
Definition ready_messages : list (service.Message (MessageT := marked_message)) :=
  [(4, true); (6, false)].
Definition nil_batch : service.MessageBatch (H0 := marked_message) :=
  [Some (4, true); None].

(** The message with the parts 1 and 2. *)
Definition msg12 : types.Message (H := nat_part) := [1; 2].

(** A batch buffer whose next read gives two messages. *)
Definition two_ready : service.airGapBatchBuffer scripted :=
  service.newAirGapBatchBuffer
    {| reads := [(Some <$> ready_messages, echo, None)]; written := [] |}.

(** A batch buffer whose next read gives a batch with a [nil] pointer. *)
Definition nil_ready : service.airGapBatchBuffer scripted :=
  service.newAirGapBatchBuffer
    {| reads := [(nil_batch, echo, None)]; written := [] |}.

(** An [AckFunc] that fails with [ErrTypeClosed]. *)
Definition closed_ack : AckFunc := fun _ _ => Some ErrTypeClosed.

(** A read succeeds, the transaction is delivered, and the [AckFunc] fails
    with [ErrTypeClosed]; the loop waits in the next [Read]. *)
Definition ack_closed : world :=
  started [AReadRet (ReadOk [5] closed_ack); ATaken;
           ARes (response.NewError None)].

(** Two deliveries, then the buffer is closed. *)
Definition two_deliveries : world :=
  started [AReadRet (ReadOk [5] echo); ATaken; ARes (response.NewError None);
           AReadRet (ReadOk [6] echo); ATaken;
           ARes (response.NewError (Some (Opaque 2)));
           AReadRet (ReadErr ErrTypeClosed)].

(** What [Read] returns at the end of the buffer. *)
Definition closed_result : option types.Message * option AckFunc * error :=
  (None, None, Some ErrTypeClosed).

(** The transaction of the second delivery. *)
Definition tr_out2 : Transaction := NewTransaction [6] 101.

(** The buffer is closed at the first read. *)
Definition closed_first : world := started [AReadRet (ReadErr ErrTypeClosed)].

(** A batch buffer that hands back, at its next read, the batch [Write]
    builds of [msg12]. *)
Definition written_back : service.airGapBatchBuffer scripted :=
  service.newAirGapBatchBuffer
    {| reads := [(service.Write_parts msg12, echo, None)]; written := [] |}.

End examples2.

(** * Properties *)

Import buffer runs.

(** ** Error chains *)


Section stream_facts.
Context `{types.PartT}.

Lemma transient_spec (e : err) :
  transient e
  = negb (bool_decide (e = ErrTypeClosed) || errors.Is (Some e) (Some Canceled)).
Proof. unfold transient. by rewrite negb_orb. Qed.


(** ** The monad and [for_] *)

Lemma bind_run {A B : Type} (c : M A) (k : A -> M B) (w : world) :
  (c ≫= k) w = match c w with
               | (Val a, w') => k a w'
               | (Parked, w') => (Parked, w')
               | (OutOfFuel, w') => (OutOfFuel, w')
               end.
Proof. reflexivity. Qed.

Lemma events_app {A : Type} (c : M A) (w : world) (t : list event) :
  trace (final c w) = trace w ++ t -> events c w = t.
Proof. unfold events. intros ->. by rewrite drop_app_length. Qed.

Lemma streak_app (n : nat) (t t' : list event) :
  streak n (t ++ t') = streak (streak n t) t'.
Proof.
  revert n. induction t as [|ev t IH]; intros k; [done|].
  destruct ev; simpl; auto.
Qed.

Lemma counter_app (name : string) (t t' : list event) :
  counter name (t ++ t') = (counter name t + counter name t')%Z.
Proof. induction t as [|ev t IH]; [done|]. destruct ev; simpl; lia. Qed.

Lemma count_app (p : event -> bool) (t t' : list event) :
  count p (t ++ t') = count p t + count p t'.
Proof. induction t as [|ev t IH]; simpl; lia. Qed.

Lemma count_none (p q : event -> bool) (t : list event) :
  (forall ev, q ev = true -> p ev = false) ->
  Forall (fun ev => q ev = true) t -> count p t = 0.
Proof.
  intros Hpq. induction 1 as [|ev t Hev _ IH]; simpl; [done|].
  by rewrite (Hpq ev Hev), IH.
Qed.

Lemma loop_run_not_out R d t o : loop_run R d t o -> o <> OutOfFuel.
Proof. induction 1; congruence. Qed.

(** With more fuel than answers, [for_] never runs out: its events are
    rounds of [R]. *)
Lemma for__run R body :
  round_ok R body -> never_out R ->
  forall fuel w, length (script w) < fuel ->
  exists t o, result (for_ fuel body) w = o /\
    trace (final (for_ fuel body) w) = trace w ++ t /\
    closedWG (m (final (for_ fuel body) w)) = closedWG (m w) /\
    throttle.failures (errThrottle (m (final (for_ fuel body) w)))
    = streak (throttle.failures (errThrottle (m w))) t /\
    forall d, loop_run R d (t ++ match o with Val _ => d | _ => [] end) o.
Proof.
  intros Hbody Hout fuel. induction fuel as [|fuel IH]; intros w Hlen; [lia|].
  destruct (Hbody w) as (t & Ht & HR & Hwg & Hth & Hdec).
  unfold final, result in *. simpl.
  destruct (body w) as [[[| ] | | ] w1] eqn:Eb; simpl in *.
  - destruct (IH w1) as (t' & o & Ho & Ht' & Hwg' & Hth' & HR');
      [specialize (Hdec eq_refl); lia|].
    exists (t ++ t'), o. rewrite Ht', Ht, Hwg', Hwg, Hth', Hth, (assoc_L (++)).
    split_and!; [done| done | done | by rewrite streak_app |].
    intros d. rewrite <- (assoc_L (++)). by eapply loop_continue.
  - exists t, (Val tt). split_and!; [done..|]. intros d. by apply loop_return.
  - exists t, Parked. split_and!; [done..|]. intros d.
    rewrite (right_id_L [] (++)). by apply loop_parked.
  - by destruct (Hout t).
Qed.

(** Running a body on a world whose script is laid open. *)
Ltac exec :=
  cbv [inputLoop_body outputLoop_body select_in select_send_or_now select_res
       buffer_Write buffer_Read buffer_EndOfInput buffer_Close Incr Timing Errorf
       Retry Reset call_ack make_chan get_typeStr set_errThrottle closedWG_Done
       closedWG_Add mbind mret M_bind M_ret bind ret await emit final result
       log_event set_script set_m set_next_chan WithSiblingSpans];
  simpl.

(** A round that is read off the trace. *)
Ltac leaf :=
  solve [ exists []; rewrite (right_id_L [] (++)); simpl;
          split_and!; [reflexivity | econstructor | done | done | done]
        | rewrite <- ?(assoc_L (++)); simpl; eexists;
          split_and!; [reflexivity | econstructor; done | done | done
                      | done || (simpl; lia)] ].

(** Finding the place of an event in a trace that is written out. *)
Ltac peel :=
  repeat match goal with
    | H : [] = ?pre ++ _ :: _ |- _ => by destruct pre
    | H : _ :: _ = ?pre ++ _ :: _ |- _ =>
        destruct pre as [|? pre]; simplify_eq/=
    end.

(** ** [inputLoop] *)

Lemma in_round_never_out : never_out in_round.
Proof. intros t Ht. inversion Ht. Qed.

Lemma inputLoop_body_ok : round_ok in_round (inputLoop_body closeAtLeisureCtx).
Proof.
  intros w; destruct w as [s sc tr nc].
  destruct sc as [|[] sc]; exec; try leaf.
  destruct sc as [|[] sc]; exec; try leaf.
  destruct e; destruct sc as [|[] sc]; exec; try leaf.
Qed.

Lemma inputLoop_run (w : world) :
  exists t o, result inputLoop w = o /\ events inputLoop w = t /\
    loop_run in_round in_deferred t o /\
    closedWG (m (final inputLoop w))
    = (closedWG (m w) - match o with Val _ => 1 | _ => 0 end)%Z.
Proof.
  destruct (for__run _ _ inputLoop_body_ok in_round_never_out
              (S (length (script w))) w)
    as (t & o & Ho & Ht & Hwg & _ & HR); [lia|].
  exists (t ++ match o with Val _ => in_deferred | _ => [] end), o.
  unfold events, final, result, inputLoop in *. rewrite bind_run.
  destruct (for_ _ _ w) as [o' w1]; simpl in *; subst o'.
  destruct o as [[]| |]; exec; rewrite ?Ht, <- ?(assoc_L (++)), ?drop_app_length;
    simpl; split_and!; try done; try lia.
  all: by rewrite (right_id_L [] (++)).
Qed.

Lemma in_run_at_top t o :
  loop_run in_round in_deferred t o -> at_top in_select t.
Proof. induction 1 as [t Ht|t Ht|t t' o Ht _ _]; by inversion Ht. Qed.

Lemma in_run_recv t o :
  loop_run in_round in_deferred t o ->
  forall pre tr post, t = pre ++ ERecvIn tr :: post ->
  exists e,
    (exists rest,
       post = EWrite closeAtLeisureCtx (Payload tr) :: EWriteRet e
              :: EIncr (write_counter e) 1
              :: ESendRes (ResponseChan tr) (response.NewError e) :: rest /\
       at_top in_select rest) \/
    (post = EWrite closeAtLeisureCtx (Payload tr) :: EWriteRet e
            :: EIncr (write_counter e) 1 :: ECloseNow :: in_deferred /\
     o = Val tt) \/
    (o = Parked /\
     (post = [EWrite closeAtLeisureCtx (Payload tr)] \/
      post = [EWrite closeAtLeisureCtx (Payload tr); EWriteRet e;
              EIncr (write_counter e) 1])).
Proof.
  induction 1 as [t Ht|t Ht|t t' o Ht Hrun IH]; intros pre tr0 post Heq;
    inversion Ht; unfold in_deferred, in_written in *; simplify_eq/=; peel.
  all: try (by apply (IH pre tr0 post)).
  all: first
    [ exists None; right; right; split; [reflexivity|left; reflexivity]
    | eexists; left; eexists; split; [reflexivity|by eapply in_run_at_top]
    | eexists; right; left; split; reflexivity
    | eexists; right; right; split; [reflexivity|right; reflexivity] ].
Qed.


Lemma in_run_counters t o :
  loop_run in_round in_deferred t o ->
  counter "write.count" t = Z.of_nat (count is_write_ok t) /\
  counter "write.error" t = Z.of_nat (count is_write_err t) /\
  count is_write_ok t + count is_write_err t <= count is_write_call t.
Proof.
  induction 1 as [t Ht|t Ht|t t' o Ht Hrun IH];
    rewrite ?counter_app, ?count_app;
    inversion Ht; subst; try destruct e; simpl; lia.
Qed.

(** C1. Every transaction [tr] that [inputLoop] receives from upstream is
    followed, in this order, by the call of [Write] with its payload, the
    return of [Write] with some error [e], the count of that outcome, and
    then one of: one send of [response.NewError e] on [tr]'s response
    channel, after which the loop is back at its first [select]; or the
    abort signal, after which nothing is sent and only the deferred calls
    run; or nothing more, when the loop waits for ever in [Write] or in the
    second [select]. *)
Theorem inputLoop_response_follows_write (w : world) pre tr post :
  events inputLoop w = pre ++ ERecvIn tr :: post ->
  exists e,
    (exists rest,
       post = EWrite closeAtLeisureCtx (Payload tr) :: EWriteRet e
              :: EIncr (write_counter e) 1
              :: ESendRes (ResponseChan tr) (response.NewError e) :: rest /\
       at_top in_select rest) \/
    (post = EWrite closeAtLeisureCtx (Payload tr) :: EWriteRet e
            :: EIncr (write_counter e) 1 :: ECloseNow :: in_deferred /\
     result inputLoop w = Val tt) \/
    (result inputLoop w = Parked /\
     (post = [EWrite closeAtLeisureCtx (Payload tr)] \/
      post = [EWrite closeAtLeisureCtx (Payload tr); EWriteRet e;
              EIncr (write_counter e) 1])).
Proof.
  intros Heq. destruct (inputLoop_run w) as (t & o & Ho & Ht & Hrun & _).
  rewrite Ht in Heq. rewrite Ho. by eapply in_run_recv.
Qed.


(** ** [outputLoop] *)

Lemma out_round_never_out : never_out out_round.
Proof. intros t Ht. inversion Ht. Qed.

Lemma outputLoop_body_ok : round_ok out_round (outputLoop_body closeNowCtx).
Proof.
  intros w; destruct w as [s sc tr nc].
  destruct sc as [|[] sc]; exec; try leaf.
  destruct r as [msg ackFunc|e]; exec.
  - destruct sc as [|[] sc]; exec; try leaf.
    destruct sc as [|[] sc]; exec; try leaf.
    exists (out_read_ok msg ackFunc nc
            ++ ESendOut (NewTransaction msg nc)
            :: out_responded msg ackFunc nc res).
    split_and!.
    2: { destruct res as [[e|]]; simpl; destruct (ackFunc _ _) as [ae|]; simpl;
           try case_bool_decide; simpl; apply out_acked. }
    all: unfold out_responded, send_metrics, ack_metrics.
    all: destruct res as [[e|]]; simpl; destruct (ackFunc _ _) as [ae|]; simpl;
      try case_bool_decide; simpl; rewrite <- ?(assoc_L (++)); simpl;
      done || lia.
  - assert (Et : transient e = (negb (bool_decide (e = ErrTypeClosed))
                                 && negb (Is_chain e Canceled))) by reflexivity.
    destruct (negb _ && negb _); exec; [|leaf].
    destruct sc as [|[] sc]; exec; try leaf.
    destruct ok; exec; leaf.
Qed.

Lemma outputLoop_run (w : world) :
  exists t o, result outputLoop w = o /\ events outputLoop w = t /\
    loop_run out_round out_deferred t o /\
    closedWG (m (final outputLoop w))
    = (closedWG (m w) - match o with Val _ => 1 | _ => 0 end)%Z /\
    throttle.failures (errThrottle (m (final outputLoop w)))
    = streak (throttle.failures (errThrottle (m w))) t.
Proof.
  destruct (for__run _ _ outputLoop_body_ok out_round_never_out
              (S (length (script w))) w)
    as (t & o & Ho & Ht & Hwg & Hth & HR); [lia|].
  exists (t ++ match o with Val _ => out_deferred | _ => [] end), o.
  unfold events, final, result, outputLoop in *. rewrite bind_run.
  destruct (for_ _ _ w) as [o' w1]; simpl in *; subst o'.
  destruct o as [[]| |]; exec; rewrite ?Ht, <- ?(assoc_L (++)), ?drop_app_length,
    ?streak_app; simpl; split_and!; try done; try lia.
  all: by rewrite (right_id_L [] (++)).
Qed.

(** Neither loop runs out of fuel. *)
Lemma loops_total (w : world) :
  result inputLoop w <> OutOfFuel /\ result outputLoop w <> OutOfFuel.
Proof.
  destruct (inputLoop_run w) as (ti & oi & <- & _ & Hin & _).
  destruct (outputLoop_run w) as (to & oo & <- & _ & Hout & _).
  split; by eapply loop_run_not_out.
Qed.

Lemma out_run_start t o :
  loop_run out_round out_deferred t o -> exists t', t = ERead closeNowCtx :: t'.
Proof. induction 1 as [t Ht|t Ht|t t' o Ht _ _]; inversion Ht; by eexists. Qed.

Lemma out_run_at_top t o :
  loop_run out_round out_deferred t o -> at_top out_start t.
Proof. intros Hr. by destruct (out_run_start _ _ Hr) as [t' ->]. Qed.

Ltac known_transient :=
  repeat match goal with He : transient _ = _ |- _ => rewrite He end.

Lemma out_run_read t o :
  loop_run out_round out_deferred t o ->
  forall pre r post, t = pre ++ EReadRet r :: post ->
  match r with
  | ReadErr e =>
      if transient e then
        exists post',
          post = EIncr "read.error" 1
                 :: EErrorf "Failed to read buffer: %v\n" (Some e)
                 :: ERetry :: post' /\
          ((post' = [] /\ o = Parked) \/
           (post' = ERetryRet false :: out_deferred /\ o = Val tt) \/
           (exists rest, post' = ERetryRet true :: ERead closeNowCtx :: rest))
      else post = out_deferred /\ o = Val tt
  | ReadOk msg ackFunc =>
      exists c post', post = EIncr "read.count" 1 :: EReset :: EMake c :: post'
  end.
Proof.
  induction 1 as [t Ht|t Ht|t t' o Ht Hrun IH]; intros pre r post Heq.
  - inversion Ht; subst;
      unfold out_deferred, out_failed, out_read_err, out_read_ok in *;
      simplify_eq/=; peel; known_transient; eauto 8.
  - inversion Ht; subst;
      unfold out_deferred, out_failed, out_read_err, out_read_ok in *;
      simplify_eq/=; peel; known_transient; eauto 8.
  - destruct (out_run_start _ _ Hrun) as [t0 ->].
    inversion Ht; subst; unfold out_failed, out_read_err, out_read_ok in *;
      simplify_eq/=.
    + destruct pre as [|? pre]; simplify_eq/=.
      destruct pre as [|? pre]; simplify_eq/=.
      { known_transient. eauto 10. }
      do 4 (destruct pre as [|? pre]; simplify_eq/=).
      by apply (IH pre r post).
    + destruct pre as [|? pre]; simplify_eq/=.
      destruct pre as [|? pre]; simplify_eq/=; [by eauto|].
      do 4 (destruct pre as [|? pre]; simplify_eq/=).
      assert (exists pre0, pre = out_responded msg ackFunc c res ++ pre0 /\
                ERead closeNowCtx :: t0 = pre0 ++ EReadRet r :: post)
        as (pre0 & -> & Heq).
      { match goal with Hx : _ = _ ++ EReadRet _ :: _ |- _ => revert Hx end.
        unfold out_responded, send_metrics, ack_metrics.
        destruct (response.Error res); simpl;
          destruct (ackFunc _ _); simpl; try case_bool_decide; simpl;
          intros; peel; by eexists. }
      by apply (IH pre0 r post).
Qed.

Lemma out_run_sent t o :
  loop_run out_round out_deferred t o ->
  forall pre tr post, t = pre ++ ESendOut tr :: post ->
  exists pre' msg ackFunc c,
    pre = pre' ++ out_read_ok msg ackFunc c /\
    tr = NewTransaction msg c /\
    ((exists res rest,
        post = out_responded msg ackFunc c res ++ rest /\
        at_top out_start rest) \/
     (post = ECloseNow :: out_deferred /\ o = Val tt) \/
     (post = EResClosed c :: out_deferred /\ o = Val tt) \/
     (post = [] /\ o = Parked)).
Proof.
  induction 1 as [t Ht|t Ht|t t' o Ht Hrun IH]; intros pre tr post Heq.
  - inversion Ht; subst;
      unfold out_deferred, out_failed, out_read_err, out_read_ok in *;
      simplify_eq/=; peel.
    all: eexists [], _, _, _; eauto 10.
  - inversion Ht; subst;
      unfold out_deferred, out_failed, out_read_err, out_read_ok in *;
      simplify_eq/=; peel.
    all: eexists [], _, _, _; eauto 10.
  - pose proof (out_run_at_top _ _ Hrun) as Htop.
    inversion Ht; subst; unfold out_failed, out_read_err, out_read_ok in *;
      simplify_eq/=.
    + peel.
      destruct (IH _ _ _ eq_refl) as (pre' & msg & ackFunc & c & -> & -> & Hc).
      exists (ERead closeNowCtx :: EReadRet (ReadErr e) :: EIncr "read.error" 1
              :: EErrorf "Failed to read buffer: %v\n" (Some e) :: ERetry
              :: ERetryRet true :: pre'), msg, ackFunc, c.
      done.
    + do 5 (destruct pre as [|? pre]; simplify_eq/=).
      destruct pre as [|? pre]; simplify_eq/=.
      { exists [], msg, ackFunc, c. split_and!; [done..|]. left. eauto. }
      assert (exists pre0, pre = out_responded msg ackFunc c res ++ pre0 /\
                           t' = pre0 ++ ESendOut tr :: post)
        as (pre0 & -> & ->).
      { match goal with Hx : _ = _ ++ ESendOut _ :: _ |- _ => revert Hx end.
        unfold out_responded, send_metrics, ack_metrics.
        destruct (response.Error res); simpl;
          destruct (ackFunc _ _); simpl; try case_bool_decide; simpl;
          intros; peel; by eexists. }
      destruct (IH _ _ _ eq_refl)
        as (pre' & msg' & ackFunc' & c' & -> & -> & Hc).
      exists (ERead closeNowCtx :: EReadRet (ReadOk msg ackFunc)
              :: EIncr "read.count" 1 :: EReset :: EMake c
              :: ESendOut (NewTransaction msg c)
              :: out_responded msg ackFunc c res ++ pre'), msg', ackFunc', c'.
      split_and!; [|done..]. simpl. by rewrite <- !(assoc_L (++)).
Qed.

Lemma out_run_counters t o :
  loop_run out_round out_deferred t o ->
  counter "read.count" t = Z.of_nat (count is_read_ok t) /\
  counter "read.error" t = Z.of_nat (count is_read_transient t) /\
  count is_read_ok t + count is_read_transient t + count is_read_quiet t
  <= count is_read_call t.
Proof.
  induction 1 as [t Ht|t Ht|t t' o Ht Hrun IH];
    rewrite ?counter_app, ?count_app;
    inversion Ht; subst; unfold out_responded, send_metrics, ack_metrics;
    repeat case_match; simpl; known_transient; simpl; try lia.
Qed.

Lemma count_ack_metrics res msg ackErr :
  count is_ack (send_metrics res msg ++ ack_metrics ackErr) = 0.
Proof.
  unfold send_metrics, ack_metrics.
  destruct (response.Error res), ackErr; simpl; try case_bool_decide; done.
Qed.

(** C2. Every transaction [tr] that [outputLoop] sends downstream was made
    from the message [msg] and the function [ackFunc] of the [Read] just
    before it, with a fresh response channel [c].  After the send comes one
    of: a response [res] on [c], the send metrics, one call of [ackFunc]
    with the error of [res], the metrics of that call, and the loop back at
    its [Read] (no other call of an [AckFunc] lies in between); or the abort
    signal, or [c] closed, and then only the deferred calls, with no call of
    [ackFunc]; or nothing more, when the loop waits for the response. *)
Theorem outputLoop_ack_follows_response (w : world) pre tr post :
  events outputLoop w = pre ++ ESendOut tr :: post ->
  exists pre' msg ackFunc c,
    pre = pre' ++ [ERead closeNowCtx; EReadRet (ReadOk msg ackFunc);
                   EIncr "read.count" 1; EReset; EMake c] /\
    tr = NewTransaction msg c /\
    ((exists res rest,
        post = ERecvRes c res :: send_metrics res msg
               ++ EAck ackFunc closeNowCtx (response.Error res)
               :: ack_metrics (ackFunc closeNowCtx (response.Error res))
               ++ rest /\
        count is_ack (send_metrics res msg
                      ++ ack_metrics (ackFunc closeNowCtx (response.Error res)))
        = 0 /\
        at_top out_start rest) \/
     (post = ECloseNow :: out_deferred /\ result outputLoop w = Val tt) \/
     (post = EResClosed c :: out_deferred /\ result outputLoop w = Val tt) \/
     (post = [] /\ result outputLoop w = Parked)).
Proof.
  intros Heq. destruct (outputLoop_run w) as (t & o & Ho & Ht & Hrun & _).
  rewrite Ht in Heq. rewrite Ho.
  destruct (out_run_sent _ _ Hrun _ _ _ Heq)
    as (pre' & msg & ackFunc & c & Hpre & Htr & Hpost).
  exists pre', msg, ackFunc, c. split_and!; [done..|].
  destruct Hpost as [(res & rest & -> & Htop)|Hpost]; [|by right].
  left. exists res, rest. split_and!; [|apply count_ack_metrics|done].
  unfold out_responded. simpl. by rewrite <- (assoc_L (++)).
Qed.

(** C5. Every return of [Read] in [outputLoop] with an error [e] is
    followed, when [e] is [ErrTypeClosed] or a cancellation, by the
    deferred calls alone (no count, no log line); otherwise by the count of
    a read error, the log line and the call of [Retry], and then the
    throttle either does not answer, or stops the loop, or lets it call
    [Read] again.  Every return of [Read] without an error is followed by the
    count of a read and by [Reset].  The failure streak of the throttle at
    the end is the number of calls of [Retry] since the last [Reset]. *)
Theorem outputLoop_read_error (w : world) pre r post :
  events outputLoop w = pre ++ EReadRet r :: post ->
  match r with
  | ReadErr e =>
      if bool_decide (e = ErrTypeClosed) || errors.Is (Some e) (Some Canceled)
      then post = out_deferred /\ result outputLoop w = Val tt
      else
        exists post',
          post = EIncr "read.error" 1
                 :: EErrorf "Failed to read buffer: %v\n" (Some e)
                 :: ERetry :: post' /\
          ((post' = [] /\ result outputLoop w = Parked) \/
           (post' = ERetryRet false :: out_deferred /\
            result outputLoop w = Val tt) \/
           (exists rest, post' = ERetryRet true :: ERead closeNowCtx :: rest))
  | ReadOk msg ackFunc =>
      exists c post', post = EIncr "read.count" 1 :: EReset :: EMake c :: post'
  end /\
  throttle.failures (errThrottle (m (final outputLoop w)))
  = streak (throttle.failures (errThrottle (m w))) (events outputLoop w).
Proof.
  intros Heq. destruct (outputLoop_run w) as (t & o & Ho & Ht & Hrun & _ & Hth).
  rewrite Ht in *. rewrite Ho. split; [|done].
  pose proof (out_run_read _ _ Hrun _ _ _ Heq) as Hr.
  destruct r as [msg ackFunc|e]; [done|].
  rewrite transient_spec in Hr. by destruct (_ || _).
Qed.

(** C9, as amended.  [write.count] counts the calls of [Write] that return
    no error and [write.error] those that return an error; [read.count]
    counts the calls of [Read] that return no error and [read.error] those
    that return an error other than [ErrTypeClosed] or a cancellation.  A
    call is counted once it has returned. *)
Theorem loop_counters (w : world) :
  (counter "write.count" (events inputLoop w)
   = Z.of_nat (count is_write_ok (events inputLoop w)) /\
   counter "write.error" (events inputLoop w)
   = Z.of_nat (count is_write_err (events inputLoop w)) /\
   count is_write_ok (events inputLoop w)
   + count is_write_err (events inputLoop w)
   <= count is_write_call (events inputLoop w)) /\
  (counter "read.count" (events outputLoop w)
   = Z.of_nat (count is_read_ok (events outputLoop w)) /\
   counter "read.error" (events outputLoop w)
   = Z.of_nat (count is_read_transient (events outputLoop w)) /\
   count is_read_ok (events outputLoop w)
   + count is_read_transient (events outputLoop w)
   + count is_read_quiet (events outputLoop w)
   <= count is_read_call (events outputLoop w)).
Proof.
  destruct (inputLoop_run w) as (ti & oi & _ & -> & Hin & _).
  destruct (outputLoop_run w) as (to & oo & _ & -> & Hout & _).
  split; [by eapply in_run_counters|by eapply out_run_counters].
Qed.

(** ** [Consume] *)

Lemma Consume_bound (w : world) (c : chan) (msgs : option chan) :
  messagesIn (m w) = Some c -> Consume msgs w = (Val (Some ErrAlreadyStarted), w).
Proof. unfold Consume. by intros ->. Qed.

Lemma Consume_all_bound (w : world) (c : chan) (calls : list (option chan)) :
  messagesIn (m w) = Some c ->
  Consume_all calls w = (Val ((fun _ => Some ErrAlreadyStarted) <$> calls), w).
Proof.
  intros Hc. induction calls as [|msgs calls IH]; [done|].
  simpl. rewrite bind_run, (Consume_bound _ c) by done.
  rewrite bind_run, IH. done.
Qed.

(** C8, as amended.  On a stream with no channel bound, [Consume] with a
    channel that is not [nil] binds it, adds two to the wait group, starts
    the two loops and the waiter, and returns no error; every later call,
    with whatever channel, returns [ErrAlreadyStarted] and changes nothing:
    not the binding, not the wait group, and no goroutine is started. *)
Theorem Consume_once (w : world) (c : chan) (later : list (option chan)) :
  messagesIn (m w) = None ->
  let w1 := final (Consume (Some c)) w in
  result (Consume (Some c)) w = Val None /\
  messagesIn (m w1) = Some c /\
  closedWG (m w1) = (closedWG (m w) + 2)%Z /\
  trace w1 = trace w ++ [EGo GoInputLoop; EGo GoOutputLoop; EGo GoWaiter] /\
  result (Consume_all later) w1
  = Val ((fun _ => Some ErrAlreadyStarted) <$> later) /\
  final (Consume_all later) w1 = w1.
Proof.
  intros Hnil w1.
  assert (Hw1 : messagesIn (m w1) = Some c).
  { unfold w1, final, Consume. by rewrite Hnil. }
  unfold result, final. rewrite (Consume_all_bound w1 c) by done.
  split_and!; try done.
  - unfold Consume. by rewrite Hnil.
  - unfold w1, final, Consume. by rewrite Hnil.
  - unfold w1, final, Consume. rewrite Hnil. simpl.
    by rewrite <- !(assoc_L (++)).
Qed.

End stream_facts.

(** ** The adapter *)

Section adapter_facts.
Context `{service.MessageT} {B : Type} `{!service.BatchBuffer B}.

(** [msg.Iter] with the closure of [Write] fills the slots from the left. *)
Lemma Iter_from_Write_closure (msg : types.Message)
    (filled : service.MessageBatch) :
  types.Iter_from (length filled) service.Write_closure msg
    (filled ++ replicate (length msg) None)
  = (None, filled ++ (service.copied <$> msg)).
Proof.
  revert filled. induction msg as [|p msg IH]; intros filled; simpl; [done|].
  replace (<[length filled:=service.copied p]>
             (filled ++ None :: replicate (length msg) None))
    with ((filled ++ [service.copied p]) ++ replicate (length msg) None).
  - replace (length filled + 1) with (length (filled ++ [service.copied p]))
      by (rewrite length_app; simpl; lia).
    rewrite IH. by rewrite <- (assoc_L (++)).
  - rewrite <- (assoc_L (++)). simpl.
    rewrite insert_app_r_alt by lia. by rewrite Nat.sub_diag.
Qed.

Lemma Write_parts_copies (msg : types.Message) :
  service.Write_parts msg = service.copied <$> msg.
Proof.
  unfold service.Write_parts, types.Iter, types.Len.
  pose proof (Iter_from_Write_closure msg []) as Hit. simpl in Hit.
  by rewrite Hit.
Qed.

(** C7. The batch [Write] builds has the length of the message, its
    [i]-th slot holds the copy of the [i]-th part, and [Write] returns what
    [WriteBatch] returns for that batch (and does not return when
    [WriteBatch] does not). *)
Theorem airGap_Write_copies (a : service.airGapBatchBuffer B)
    (ctx : context.Context) (msg : types.Message) :
  service.Write_parts msg
  = (fun p => Some (service.Copy (service.newMessageFromPart p))) <$> msg /\
  length (service.Write_parts msg) = types.Len msg /\
  service.Write a ctx msg
  = match service.WriteBatch (service.b a) ctx (service.Write_parts msg) with
    | Some (e, b') => Some (e, {| service.b := b' |})
    | None => None
    end /\
  fst <$> service.Write a ctx msg
  = fst <$> service.WriteBatch (service.b a) ctx (service.Write_parts msg).
Proof.
  split_and!.
  - apply Write_parts_copies.
  - rewrite Write_parts_copies. apply length_fmap.
  - reflexivity.
  - unfold service.Write.
    by destruct (service.WriteBatch _ _ _) as [[e b']|].
Qed.

(** C4. When [ReadBatch] returns an error, [Read] returns a [nil] message
    and a [nil] function with an error: [ErrTypeClosed] when the error of
    [ReadBatch] is or wraps [ErrEndOfBuffer], and the error of [ReadBatch]
    itself otherwise. *)
Theorem airGap_Read_error (a : service.airGapBatchBuffer B)
    (ctx : context.Context) batch ackFn (e : err) (b' : B) :
  service.ReadBatch (service.b a) ctx = Some ((batch, ackFn, Some e), b') ->
  service.Read a ctx
  = Some ((None, None,
           Some (if errors.Is (Some e) (Some ErrEndOfBuffer)
                 then ErrTypeClosed else e)),
          {| service.b := b' |}).
Proof.
  intros Hread. unfold service.Read. rewrite Hread.
  by destruct (errors.Is _ _).
Qed.


End adapter_facts.

(** * The properties at work on concrete runs *)

Section concrete.
Import examples.

(** C3, on the code.  When downstream answers a transaction with no error,
    [outputLoop] counts a send error and records no latency; when it
    answers with an error, [outputLoop] counts a success and records the
    latency. *)
Theorem outputLoop_send_metrics_swapped :
  (counter "send.success" (events outputLoop deliver_ok) = 0%Z /\
   counter "send.error" (events outputLoop deliver_ok) = 1%Z /\
   count is_timing (events outputLoop deliver_ok) = 0) /\
  (counter "send.success" (events outputLoop deliver_failed) = 1%Z /\
   counter "send.error" (events outputLoop deliver_failed) = 0%Z /\
   count is_timing (events outputLoop deliver_failed) = 1).
Proof. by vm_compute. Qed.

Lemma inputLoop_response_follows_write_witness :
  events inputLoop two_writes
  = take 5 (events inputLoop two_writes)
    ++ ERecvIn tr_b :: drop 6 (events inputLoop two_writes) /\
  exists e,
    (exists rest,
       drop 6 (events inputLoop two_writes)
       = EWrite closeAtLeisureCtx (Payload tr_b) :: EWriteRet e
         :: EIncr (write_counter e) 1
         :: ESendRes (ResponseChan tr_b) (response.NewError e) :: rest /\
       at_top in_select rest) \/
    (drop 6 (events inputLoop two_writes)
     = EWrite closeAtLeisureCtx (Payload tr_b) :: EWriteRet e
       :: EIncr (write_counter e) 1 :: ECloseNow :: in_deferred /\
     result inputLoop two_writes = Val tt) \/
    (result inputLoop two_writes = Parked /\
     (drop 6 (events inputLoop two_writes)
      = [EWrite closeAtLeisureCtx (Payload tr_b)] \/
      drop 6 (events inputLoop two_writes)
      = [EWrite closeAtLeisureCtx (Payload tr_b); EWriteRet e;
         EIncr (write_counter e) 1])).
Proof.
  split; [reflexivity|].
  apply (inputLoop_response_follows_write two_writes
           (take 5 (events inputLoop two_writes)) tr_b
           (drop 6 (events inputLoop two_writes))).
  reflexivity.
Defined.

Lemma outputLoop_ack_follows_response_witness :
  events outputLoop deliver_failed
  = take 11 (events outputLoop deliver_failed)
    ++ ESendOut tr_out
    :: drop 12 (events outputLoop deliver_failed) /\
  exists pre' msg ackFunc c,
    take 11 (events outputLoop deliver_failed)
    = pre' ++ [ERead closeNowCtx; EReadRet (ReadOk msg ackFunc);
               EIncr "read.count" 1; EReset; EMake c] /\
    tr_out = NewTransaction msg c /\
    ((exists res rest,
        drop 12 (events outputLoop deliver_failed)
        = ERecvRes c res :: send_metrics res msg
          ++ EAck ackFunc closeNowCtx (response.Error res)
          :: ack_metrics (ackFunc closeNowCtx (response.Error res))
          ++ rest /\
        count is_ack (send_metrics res msg
                      ++ ack_metrics (ackFunc closeNowCtx (response.Error res)))
        = 0 /\
        at_top out_start rest) \/
     (drop 12 (events outputLoop deliver_failed) = ECloseNow :: out_deferred /\
      result outputLoop deliver_failed = Val tt) \/
     (drop 12 (events outputLoop deliver_failed) = EResClosed c :: out_deferred /\
      result outputLoop deliver_failed = Val tt) \/
     (drop 12 (events outputLoop deliver_failed) = [] /\
      result outputLoop deliver_failed = Parked)).
Proof.
  split; [reflexivity|].
  apply (outputLoop_ack_follows_response deliver_failed
           (take 11 (events outputLoop deliver_failed))
           tr_out
           (drop 12 (events outputLoop deliver_failed))).
  reflexivity.
Defined.

Lemma outputLoop_read_error_witness :
  events outputLoop deliver_ok
  = take 1 (events outputLoop deliver_ok)
    ++ EReadRet (ReadErr (Opaque 3)) :: drop 2 (events outputLoop deliver_ok) /\
  (exists post',
     drop 2 (events outputLoop deliver_ok)
     = EIncr "read.error" 1
       :: EErrorf "Failed to read buffer: %v\n" (Some (Opaque 3))
       :: ERetry :: post' /\
     ((post' = [] /\ result outputLoop deliver_ok = Parked) \/
      (post' = ERetryRet false :: out_deferred /\
       result outputLoop deliver_ok = Val tt) \/
      (exists rest, post' = ERetryRet true :: ERead closeNowCtx :: rest))) /\
  throttle.failures (errThrottle (m (final outputLoop deliver_ok)))
  = streak (throttle.failures (errThrottle (m deliver_ok)))
      (events outputLoop deliver_ok).
Proof.
  split; [reflexivity|].
  apply (outputLoop_read_error deliver_ok
           (take 1 (events outputLoop deliver_ok)) (ReadErr (Opaque 3))
           (drop 2 (events outputLoop deliver_ok))).
  reflexivity.
Defined.

Lemma Consume_once_witness :
  messagesIn (m fresh) = None /\
  (result (Consume (Some 5)) fresh = Val None /\
   messagesIn (m (final (Consume (Some 5)) fresh)) = Some 5 /\
   closedWG (m (final (Consume (Some 5)) fresh)) = (closedWG (m fresh) + 2)%Z /\
   trace (final (Consume (Some 5)) fresh)
   = trace fresh ++ [EGo GoInputLoop; EGo GoOutputLoop; EGo GoWaiter] /\
   result (Consume_all [Some 6; None]) (final (Consume (Some 5)) fresh)
   = Val [Some ErrAlreadyStarted; Some ErrAlreadyStarted] /\
   final (Consume_all [Some 6; None]) (final (Consume (Some 5)) fresh)
   = final (Consume (Some 5)) fresh).
Proof.
  split; [reflexivity|].
  apply (Consume_once fresh 5 [Some 6; None]). reflexivity.
Defined.

(** C8, as it is stated, fails when the first call is given a [nil]
    channel: the stream stays unbound, so the second call does not return
    [ErrAlreadyStarted]; it binds its channel and starts the goroutines a
    second time. *)
Lemma Consume_nil_binds_again :
  result (Consume None) fresh = Val None /\
  result (Consume (Some 5)) (final (Consume None) fresh)
  <> Val (Some ErrAlreadyStarted) /\
  trace (final (Consume (Some 5)) (final (Consume None) fresh))
  = [EGo GoInputLoop; EGo GoOutputLoop; EGo GoWaiter;
     EGo GoInputLoop; EGo GoOutputLoop; EGo GoWaiter].
Proof. split_and!; [reflexivity|by vm_compute|reflexivity]. Qed.

(** C9, as it is stated, fails on a call that returns an error: the one
    call of [Write] of [failed_write] leaves [write.count] at zero, and the
    one call of [Read] of [read_wrapped_closed] leaves [read.count] at
    zero. *)
Lemma count_misses_failed_call :
  (count is_write_call (events inputLoop failed_write) = 1 /\
   count is_write_err (events inputLoop failed_write) = 1 /\
   counter "write.count" (events inputLoop failed_write) <> 1%Z) /\
  (count is_read_call (events outputLoop read_wrapped_closed) = 1 /\
   count is_read_transient (events outputLoop read_wrapped_closed) = 1 /\
   counter "read.count" (events outputLoop read_wrapped_closed) <> 1%Z).
Proof. by vm_compute. Qed.

Lemma airGap_Read_error_witness :
  service.ReadBatch (service.b at_end) context.Background
  = Some (([], echo, Some (Wrapped "disk" ErrEndOfBuffer)),
          {| reads := []; written := [] |}) /\
  service.Read at_end context.Background
  = Some ((None, None,
           Some (if errors.Is (Some (Wrapped "disk" ErrEndOfBuffer))
                      (Some ErrEndOfBuffer)
                 then ErrTypeClosed else Wrapped "disk" ErrEndOfBuffer)),
          {| service.b := {| reads := []; written := [] |} |}).
Proof.
  split; [reflexivity|].
  apply (airGap_Read_error at_end context.Background [] echo
           (Wrapped "disk" ErrEndOfBuffer) {| reads := []; written := [] |}).
  reflexivity.
Defined.


End concrete.

(** * More properties of the two files *)

Import lifecycle.

Section more_facts.
Context `{types.PartT}.

Ltac peel :=
  repeat match goal with
    | H : [] = ?pre ++ _ :: _ |- _ => by destruct pre
    | H : _ :: _ = ?pre ++ _ :: _ |- _ =>
        destruct pre as [|? pre]; simplify_eq/=
    end.

Ltac known_transient :=
  repeat match goal with He : transient _ = _ |- _ => rewrite He end.

(** Unfolding the rounds of [outputLoop] down to lists of events. *)
Ltac out_lists :=
  unfold out_deferred, out_failed, out_read_err, out_read_ok, out_responded,
    send_metrics, ack_metrics in *.

Lemma loop_run_Forall R d (P : event -> Prop) t o :
  (forall t' o', R t' o' -> Forall P t') -> Forall P d ->
  loop_run R d t o -> Forall P t.
Proof.
  intros HR Hd. induction 1 as [t Ht|t Ht|t t' o Ht _ IH];
    rewrite ?Forall_app; eauto.
Qed.

Lemma in_round_events t o :
  in_round t o -> Forall (fun ev => input_event ev = true) t.
Proof.
  inversion 1; subst; unfold in_written; try destruct e;
    repeat constructor.
Qed.

(** X1. [inputLoop] leaves no events but these: the cases of its two
    [select]s, calls of [Write] with the drain context and their returns,
    increments by one of [write.count] and [write.error], responses, and
    its three deferred calls.  So it never calls [Read], an [AckFunc] or
    [Close], never logs, and never sends downstream. *)
Theorem inputLoop_events (w : world) :
  Forall (fun ev => input_event ev = true) (events inputLoop w).
Proof.
  destruct (inputLoop_run w) as (t & o & _ & -> & Hrun & _).
  eapply loop_run_Forall; [apply in_round_events| |done].
  repeat constructor.
Qed.

Lemma out_round_events t o :
  out_round t o -> Forall (fun ev => output_event ev = true) t.
Proof.
  inversion 1; subst; out_lists; repeat case_match;
    repeat (constructor || apply Forall_app || split).
Qed.

(** X2. [outputLoop] leaves no events but these: calls of [Read] and of an
    [AckFunc] with the abort context, the throttle, increments by one of
    its five counters, the latency timer, its two log lines, the channel it
    makes, the send downstream, the response, the abort signal, and its
    deferred calls with [Close] on the background context.  So it never
    calls [Write] or [EndOfInput], never receives from upstream, and never
    looks at the drain signal. *)
Theorem outputLoop_events (w : world) :
  Forall (fun ev => output_event ev = true) (events outputLoop w).
Proof.
  destruct (outputLoop_run w) as (t & o & _ & -> & Hrun & _).
  eapply loop_run_Forall; [apply out_round_events| |done].
  repeat constructor.
Qed.

Lemma in_run_responses t o :
  loop_run in_round in_deferred t o ->
  count is_write_call t = count is_recv_in t /\
  count is_close_now t <= 1 /\
  match o with
  | Val _ => count is_send_res t + count is_close_now t = count is_recv_in t
  | _ => count is_close_now t = 0 /\
         count is_send_res t <= count is_recv_in t <= count is_send_res t + 1
  end.
Proof.
  induction 1 as [t Ht|t Ht|t t' o Ht Hrun IH]; rewrite ?count_app;
    inversion Ht; subst; simpl; try lia.
  destruct o; lia.
Qed.

(** X3. [inputLoop] calls [Write] once for each transaction it receives
    and takes the abort case at most once.  When it has returned, every
    transaction received was answered, but for the one at which it took the
    abort case; while it has not returned, at most one transaction is
    still unanswered. *)
Theorem inputLoop_responses (w : world) :
  count is_write_call (events inputLoop w)
  = count is_recv_in (events inputLoop w) /\
  count is_close_now (events inputLoop w) <= 1 /\
  match result inputLoop w with
  | Val _ =>
      count is_send_res (events inputLoop w)
      + count is_close_now (events inputLoop w)
      = count is_recv_in (events inputLoop w)
  | _ =>
      count is_close_now (events inputLoop w) = 0 /\
      count is_send_res (events inputLoop w)
      <= count is_recv_in (events inputLoop w)
      <= count is_send_res (events inputLoop w) + 1
  end.
Proof.
  destruct (inputLoop_run w) as (t & o & -> & -> & Hrun & _).
  by apply in_run_responses.
Qed.

Lemma counter_metrics_send res msg :
  (counter "send.success" (send_metrics res msg)
   + counter "send.error" (send_metrics res msg) = 1)%Z /\
  counter "read.error" (send_metrics res msg) = 0%Z /\
  counter "ack.error" (send_metrics res msg) = 0%Z.
Proof. unfold send_metrics. by destruct (response.Error res). Qed.

Lemma out_run_flow t o :
  loop_run out_round out_deferred t o ->
  count is_recv_res t = count is_ack t /\
  count is_recv_res t <= count is_send_out t <= count is_recv_res t + 1 /\
  count is_send_out t <= count is_read_ok t <= count is_send_out t + 1 /\
  (counter "send.success" t + counter "send.error" t
   = Z.of_nat (count is_recv_res t))%Z /\
  counter "ack.error" t = Z.of_nat (count is_ack_failed t) /\
  counter "read.error" t = Z.of_nat (count is_retry t).
Proof.
  induction 1 as [t Ht|t Ht|t t' o Ht Hrun IH];
    rewrite ?counter_app, ?count_app;
    inversion Ht; subst; out_lists;
    repeat case_match; simpl; 
    repeat match goal with He : _ = _ |- _ => rewrite He end; simpl;
    try case_bool_decide; try lia.
Qed.

(** X4. In [outputLoop], every response received is passed to one call of
    an [AckFunc]; at most one transaction sent has no response yet and at
    most one message read has not been sent.  [send.success] and
    [send.error] together count the responses, [ack.error] counts the calls
    of an [AckFunc] that return an error, and [read.error] counts the calls
    of [Retry]. *)
Theorem outputLoop_flow (w : world) :
  count is_recv_res (events outputLoop w) = count is_ack (events outputLoop w) /\
  count is_recv_res (events outputLoop w)
  <= count is_send_out (events outputLoop w)
  <= count is_recv_res (events outputLoop w) + 1 /\
  count is_send_out (events outputLoop w)
  <= count is_read_ok (events outputLoop w)
  <= count is_send_out (events outputLoop w) + 1 /\
  (counter "send.success" (events outputLoop w)
   + counter "send.error" (events outputLoop w)
   = Z.of_nat (count is_recv_res (events outputLoop w)))%Z /\
  counter "ack.error" (events outputLoop w)
  = Z.of_nat (count is_ack_failed (events outputLoop w)) /\
  counter "read.error" (events outputLoop w)
  = Z.of_nat (count is_retry (events outputLoop w)).
Proof.
  destruct (outputLoop_run w) as (t & o & _ & -> & Hrun & _).
  by apply (out_run_flow _ o).
Qed.

Lemma out_round_quiet t :
  out_round t (Val Continue) -> Forall (fun ev => out_quiet ev = true) t.
Proof.
  inversion 1; subst; out_lists; repeat case_match;
    repeat (constructor || apply Forall_app || split);
    unfold out_quiet; simpl; by known_transient.
Qed.

Lemma out_run_exit t o :
  loop_run out_round out_deferred t o ->
  match o with
  | Val _ =>
      exists t0 ev, t = t0 ++ ev :: out_deferred /\ out_cause ev = true /\
                    Forall (fun ev' => out_quiet ev' = true) t0
  | Parked => Forall (fun ev' => out_quiet ev' = true) t
  | OutOfFuel => False
  end.
Proof.
  induction 1 as [t Ht|t Ht|t t' o Ht Hrun IH].
  - inversion Ht; subst.
    + exists [ERead closeNowCtx], (EReadRet (ReadErr e)).
      split_and!; [done|simpl; by known_transient|repeat constructor].
    + exists (out_failed e), (ERetryRet false). rewrite <- (assoc_L (++)).
      split_and!; [done|done|].
      repeat constructor. unfold out_quiet. simpl. by known_transient.
    + exists (out_read_ok msg ackFunc c), ECloseNow. rewrite <- (assoc_L (++)).
      split_and!; [done|done|repeat constructor].
    + exists (out_read_ok msg ackFunc c ++ [ESendOut (NewTransaction msg c)]),
        ECloseNow.
      rewrite <- !(assoc_L (++)). split_and!; [done|done|repeat constructor].
    + exists (out_read_ok msg ackFunc c ++ [ESendOut (NewTransaction msg c)]),
        (EResClosed c).
      rewrite <- !(assoc_L (++)). split_and!; [done|done|repeat constructor].
  - inversion Ht; subst; out_lists; repeat constructor.
    unfold out_quiet. simpl. by known_transient.
  - pose proof (out_round_quiet _ Ht) as Hq.
    destruct o as [[]| |]; [|..|done].
    + destruct IH as (t0 & ev & -> & Hev & Hq0).
      exists (t ++ t0), ev. rewrite (assoc_L (++)).
      split_and!; [done..|]. by apply Forall_app.
    + by apply Forall_app.
Qed.

(** X5. [outputLoop] returns exactly when it has seen a read error that is
    [ErrTypeClosed] or a cancellation, the throttle saying stop, the abort
    signal, or the response channel closed: a loop that has returned saw
    one of these last, and right after it the deferred calls ran, with
    [Close] on the buffer once, [close(m.messagesOut)] once and
    [closedWG.Done()] once.  A loop that has not returned has seen none of
    them and has made no deferred call. *)
Theorem outputLoop_exit (w : world) :
  match result outputLoop w with
  | Val _ =>
      exists t0 ev,
        events outputLoop w = t0 ++ ev :: out_deferred /\
        out_cause ev = true /\
        Forall (fun ev' => out_quiet ev' = true) t0 /\
        count is_buffer_close (events outputLoop w) = 1 /\
        count is_close_out (events outputLoop w) = 1 /\
        count is_wg_done (events outputLoop w) = 1 /\
        closedWG (m (final outputLoop w)) = (closedWG (m w) - 1)%Z
  | Parked =>
      Forall (fun ev' => out_quiet ev' = true) (events outputLoop w) /\
      closedWG (m (final outputLoop w)) = closedWG (m w)
  | OutOfFuel => False
  end.
Proof.
  destruct (outputLoop_run w) as (t & o & -> & -> & Hrun & Hwg & _).
  pose proof (out_run_exit _ _ Hrun) as Hexit.
  destruct o as [[]| |]; [|split; [done|lia]|done].
  destruct Hexit as (t0 & ev & -> & Hev & Hq).
  exists t0, ev. split_and!; [done..| | | |done].
  - rewrite count_app, (count_none is_buffer_close out_quiet t0);
      [by destruct ev|by intros []|done].
  - rewrite count_app, (count_none is_close_out out_quiet t0);
      [by destruct ev|by intros []|done].
  - rewrite count_app, (count_none is_wg_done out_quiet t0);
      [by destruct ev|by intros []|done].
Qed.

Lemma out_run_ack t o :
  loop_run out_round out_deferred t o ->
  forall pre ackFunc ctx e post, t = pre ++ EAck ackFunc ctx e :: post ->
  ctx = closeNowCtx /\
  exists rest, post = ack_metrics (ackFunc ctx e) ++ ERead closeNowCtx :: rest.
Proof.
  induction 1 as [t Ht|t Ht|t t' o Ht Hrun IH]; intros pre f ctx e0 post Heq.
  - inversion Ht; subst; out_lists; simplify_eq/=; peel.
  - inversion Ht; subst; out_lists; simplify_eq/=; peel.
  - inversion Ht; subst; unfold out_failed, out_read_err, out_read_ok in *;
      simplify_eq/=.
    + peel. by apply (IH pre f ctx e0 post).
    + do 7 (destruct pre as [|? pre]; simplify_eq/=).
      assert ((pre = send_metrics res msg /\ f = ackFunc /\ ctx = closeNowCtx /\
               e0 = response.Error res /\
               post = ack_metrics (ackFunc closeNowCtx (response.Error res)) ++ t')
              \/ exists pre0, t' = pre0 ++ EAck f ctx e0 :: post) as Hc.
      { match goal with Hx : _ = _ ++ EAck _ _ _ :: _ |- _ => revert Hx end.
        unfold send_metrics, ack_metrics.
        destruct (response.Error res); simpl;
          destruct (ackFunc _ _) eqn:Ea; simpl; try case_bool_decide; simpl;
          intros; peel; rewrite ?Ea; simpl; try case_bool_decide;
          first [by left | right; by eexists]. }
      destruct Hc as [(-> & -> & -> & -> & ->)|[pre0 ->]].
      * split; [done|]. destruct (out_run_start _ _ Hrun) as [t0 ->]. by eexists.
      * by apply (IH pre0 f ctx e0 post).
Qed.

(** X6. Every call of an [AckFunc] in [outputLoop] is made with the abort
    context and, whatever it returns, is followed by the next call of
    [Read]: an error it returns is counted in [ack.error], and logged
    unless it is [ErrTypeClosed], and never ends the loop. *)
Theorem outputLoop_ack_error (w : world) pre ackFunc ctx e post :
  events outputLoop w = pre ++ EAck ackFunc ctx e :: post ->
  ctx = closeNowCtx /\
  exists rest,
    post = match ackFunc ctx e with
           | None => []
           | Some ae =>
               EIncr "ack.error" 1
               :: (if bool_decide (ae = ErrTypeClosed) then []
                   else [EErrorf "Failed to ack buffer message: %v\n" (Some ae)])
           end ++ ERead closeNowCtx :: rest.
Proof.
  intros Heq. destruct (outputLoop_run w) as (t & o & _ & Ht & Hrun & _).
  rewrite Ht in Heq.
  destruct (out_run_ack _ _ Hrun pre _ _ _ _ Heq) as [-> [rest ->]].
  split; [done|]. exists rest. unfold ack_metrics.
  by destruct (ackFunc _ _).
Qed.

Lemma count_responded msg ackFunc c res :
  count is_ack (out_responded msg ackFunc c res) = 1 /\
  count is_recv_res (out_responded msg ackFunc c res) = 1 /\
  count is_send_out (out_responded msg ackFunc c res) = 0.
Proof.
  unfold out_responded, send_metrics, ack_metrics.
  destruct (response.Error res), (ackFunc _ _); simpl;
    try case_bool_decide; done.
Qed.

Lemma out_run_in_flight t o :
  loop_run out_round out_deferred t o ->
  forall pre tr post, t = pre ++ ESendOut tr :: post ->
  count is_send_out pre = count is_recv_res pre /\
  count is_send_out pre = count is_ack pre.
Proof.
  induction 1 as [t Ht|t Ht|t t' o Ht Hrun IH]; intros pre tr post Heq.
  - inversion Ht; subst;
      unfold out_deferred, out_failed, out_read_err, out_read_ok in *;
      simplify_eq/=; peel; done.
  - inversion Ht; subst;
      unfold out_deferred, out_failed, out_read_err, out_read_ok in *;
      simplify_eq/=; peel; done.
  - inversion Ht; subst; unfold out_failed, out_read_err, out_read_ok in *;
      simplify_eq/=.
    + peel. simpl. by apply (IH pre tr post).
    + do 5 (destruct pre as [|? pre]; simplify_eq/=).
      destruct pre as [|? pre]; simplify_eq/=; [done|].
      assert (exists pre0, pre = out_responded msg ackFunc c res ++ pre0 /\
                           t' = pre0 ++ ESendOut tr :: post)
        as (pre0 & -> & ->).
      { match goal with Hx : _ = _ ++ ESendOut _ :: _ |- _ => revert Hx end.
        unfold out_responded, send_metrics, ack_metrics.
        destruct (response.Error res); simpl;
          destruct (ackFunc _ _); simpl; try case_bool_decide; simpl;
          intros; peel; by eexists. }
      destruct (IH _ _ _ eq_refl) as [IH1 IH2].
      destruct (count_responded msg ackFunc c res) as (Ha & Hr & Hs).
      rewrite !count_app, Ha, Hr, Hs. lia.
Qed.

(** X7. When [outputLoop] sends a transaction downstream, every
    transaction it sent before has had its response and its call of the
    [AckFunc]: at most one transaction is in flight. *)
Theorem outputLoop_one_in_flight (w : world) pre tr post :
  events outputLoop w = pre ++ ESendOut tr :: post ->
  count is_send_out pre = count is_recv_res pre /\
  count is_send_out pre = count is_ack pre.
Proof.
  intros Heq. destruct (outputLoop_run w) as (t & o & _ & Ht & Hrun & _).
  rewrite Ht in Heq. by apply (out_run_in_flight _ _ Hrun pre tr post).
Qed.

Ltac exec :=
  cbv [inputLoop_body outputLoop_body select_in select_send_or_now select_res
       buffer_Write buffer_Read buffer_EndOfInput buffer_Close Incr Timing Errorf
       Retry Reset call_ack make_chan get_typeStr set_errThrottle closedWG_Done
       closedWG_Add mbind mret M_bind M_ret bind ret await emit final result
       log_event set_script set_m set_next_chan WithSiblingSpans];
  simpl.

Lemma outputLoop_quiet_first (w : world) (e : err) (rest : list answer) :
  transient e = false ->
  script w = AReadRet (ReadErr e) :: rest ->
  events outputLoop w = [ERead closeNowCtx; EReadRet (ReadErr e)] ++ out_deferred /\
  result outputLoop w = Val tt /\
  script (final outputLoop w) = rest.
Proof.
  intros He Hs. destruct w as [s sc tr nc]. simpl in Hs. subst sc.
  unfold events, result, final, outputLoop. rewrite bind_run.
  assert (Et : transient e = (negb (bool_decide (e = ErrTypeClosed))
                               && negb (Is_chain e Canceled))) by reflexivity.
  rewrite He in Et.
  simpl. exec. rewrite <- Et. exec.
  rewrite <- !(assoc_L (++)). by rewrite drop_app_length.
Qed.

Lemma returned_or_parked (o : outcome unit) :
  o <> OutOfFuel -> o = Val tt \/ o = Parked.
Proof. destruct o as [[]| |]; auto. done. Qed.

(** X8. On a new stream, after [Consume] and after [inputLoop] and
    [outputLoop] have run against their answers, the wait group counts the
    loops that have not returned, and the waiter passes [closedWG.Wait()],
    and so calls [ShutdownComplete], exactly when both loops have
    returned. *)
Theorem waiter_after_loops (typeStr0 : string) (msgs : chan)
    (s_in s_out : list answer) :
  let w1 := final (Consume (Some msgs)) (new_world typeStr0) in
  let w2 := final (against s_in inputLoop) w1 in
  let w3 := after_loops msgs s_in s_out (new_world typeStr0) in
  closedWG (m w3)
  = ((if returned (result (against s_in inputLoop) w1) then 0 else 1)
     + (if returned (result (against s_out outputLoop) w2) then 0 else 1))%Z /\
  (result waiter w3 = Val tt <->
   result (against s_in inputLoop) w1 = Val tt /\
   result (against s_out outputLoop) w2 = Val tt) /\
  (result waiter w3 = Val tt \/ result waiter w3 = Parked).
Proof.
  intros w1 w2 w3.
  assert (Hw1 : closedWG (m w1) = 2%Z) by done.
  destruct (inputLoop_run (set_script s_in w1)) as (ti & oi & Hoi & _ & Hin & Hwi).
  destruct (outputLoop_run (set_script s_out w2))
    as (to & oo & Hoo & _ & Hout & Hwo & _).
  change (final inputLoop (set_script s_in w1)) with w2 in Hwi.
  change (final outputLoop (set_script s_out w2)) with w3 in Hwo.
  change (result (against s_in inputLoop) w1)
    with (result inputLoop (set_script s_in w1)).
  change (result (against s_out outputLoop) w2)
    with (result outputLoop (set_script s_out w2)).
  rewrite Hoi, Hoo.
  change (closedWG (m (set_script s_in w1))) with (closedWG (m w1)) in Hwi.
  change (closedWG (m (set_script s_out w2))) with (closedWG (m w2)) in Hwo.
  rewrite Hw1 in Hwi. rewrite Hwi in Hwo.
  unfold waiter, closedWG_Wait, result. rewrite Hwo.
  destruct (returned_or_parked oi (loop_run_not_out _ _ _ _ Hin)) as [->| ->];
    destruct (returned_or_parked oo (loop_run_not_out _ _ _ _ Hout)) as [->| ->];
    simpl; split_and!; try done; try (by left); try (by right);
    split; try done; intros [? ?]; done.
Qed.

End more_facts.

Section adapter_more.
Context `{service.MessageT} {B : Type} `{!service.BatchBuffer B}.

Lemma Read_append_some (tMsg : types.Message) (ms : list service.Message) :
  service.Read_append tMsg (Some <$> ms) = Some (tMsg ++ (service.part <$> ms)).
Proof.
  revert tMsg. induction ms as [|msg ms IH]; intros tMsg; simpl.
  - by rewrite (right_id_L [] (++)).
  - rewrite IH. unfold types.Append. by rewrite <- (assoc_L (++)).
Qed.

Lemma Read_append_nil (tMsg : types.Message) (batch : service.MessageBatch) :
  None ∈ batch -> service.Read_append tMsg batch = None.
Proof.
  revert tMsg. induction batch as [|[msg|] batch IH]; intros tMsg Hin; simpl.
  - by apply not_elem_of_nil in Hin.
  - apply IH. by apply elem_of_cons in Hin as [|].
  - done.
Qed.

(** X9. When [ReadBatch] returns a batch without [nil] pointers and no
    error, [Read] returns the message made of the parts of the batch in
    batch order, with no error and with a function that returns what the
    function of [ReadBatch] returns. *)
Theorem airGap_Read_success (a : service.airGapBatchBuffer B)
    (ctx : context.Context) (ms : list service.Message) ackFn (b' : B) :
  service.ReadBatch (service.b a) ctx = Some ((Some <$> ms, ackFn, None), b') ->
  exists ackFunc,
    service.Read a ctx
    = Some ((Some (service.part <$> ms), Some ackFunc, None),
            {| service.b := b' |}) /\
    length (service.part <$> ms) = length ms /\
    forall c aerr, ackFunc c aerr = ackFn c aerr.
Proof.
  intros Hread. exists (fun c aerr => ackFn c aerr).
  unfold service.Read. rewrite Hread, Read_append_some.
  split_and!; [done|apply length_fmap|done].
Qed.

(** X10. When [ReadBatch] returns no error and a batch that holds a [nil]
    pointer, [Read] does not return: [msg.part] panics. *)
Theorem airGap_Read_nil_pointer (a : service.airGapBatchBuffer B)
    (ctx : context.Context) (batch : service.MessageBatch) ackFn (b' : B) :
  None ∈ batch ->
  service.ReadBatch (service.b a) ctx = Some ((batch, ackFn, None), b') ->
  service.Read a ctx = None.
Proof.
  intros Hnil Hread. unfold service.Read.
  by rewrite Hread, Read_append_nil.
Qed.

Lemma Read_append_Write_parts (msg : types.Message) :
  service.Read_append types.New_nil (service.Write_parts msg)
  = Some ((fun p => service.part (service.Copy (service.newMessageFromPart p)))
          <$> msg).
Proof.
  rewrite Write_parts_copies.
  replace (service.copied <$> msg)
    with (Some <$> ((fun p => service.Copy (service.newMessageFromPart p)) <$> msg))
    by (by rewrite <- list_fmap_compose).
  rewrite Read_append_some. unfold types.New_nil. simpl.
  by rewrite <- list_fmap_compose.
Qed.

(** X11. When the backend hands back a batch that [Write] built of
    [msg], [Read] returns a message whose [i]-th part is the part of the
    copy [Write] made of the [i]-th part of [msg]; it is [msg] itself when
    [newMessageFromPart] and [Copy] keep the part. *)
Theorem airGap_Write_then_Read (a : service.airGapBatchBuffer B)
    (ctx : context.Context) (msg : types.Message) ackFn (b' : B) :
  service.ReadBatch (service.b a) ctx
  = Some ((service.Write_parts msg, ackFn, None), b') ->
  exists parts ackFunc,
    service.Read a ctx
    = Some ((Some parts, Some ackFunc, None), {| service.b := b' |}) /\
    parts = (fun p => service.part (service.Copy (service.newMessageFromPart p)))
            <$> msg /\
    ((forall p, service.part (service.newMessageFromPart p) = p) ->
     (forall sm, service.part (service.Copy sm) = service.part sm) ->
     parts = msg).
Proof.
  intros Hread. eexists _, (fun c aerr => ackFn c aerr).
  unfold service.Read. rewrite Hread, Read_append_Write_parts.
  split_and!; [done..|].
  intros Hnew Hcopy. rewrite <- (list_fmap_id msg) at 2.
  apply list_fmap_ext. intros i p _. simpl. by rewrite Hcopy, Hnew.
Qed.

(** X12. Whenever [Read] returns, it returns either a message and a
    function with no error, or neither with an error; and that error is
    never [ErrEndOfBuffer] nor wraps it. *)
Theorem airGap_Read_contract (a : service.airGapBatchBuffer B)
    (ctx : context.Context) r (a' : service.airGapBatchBuffer B) :
  service.Read a ctx = Some (r, a') ->
  (exists msg ackFunc, r = (Some msg, Some ackFunc, None)) \/
  (exists e, r = (None, None, Some e) /\
             errors.Is (Some e) (Some ErrEndOfBuffer) = false).
Proof.
  unfold service.Read.
  destruct (service.ReadBatch _ _) as [[[[batch ackFn] [e|]] b']|]; [| |done].
  - simpl. destruct (Is_chain e ErrEndOfBuffer) eqn:He;
      intros [= <- <-]; right; eauto.
  - destruct (service.Read_append _ _); [|done].
    intros [= <- <-]. left. eauto.
Qed.

(** X13. When [ReadBatch] fails with an error that is or wraps
    [ErrEndOfBuffer], what [Read] returns is the answer [ErrTypeClosed] to
    [outputLoop], and an [outputLoop] whose first [Read] gets that answer
    sends no transaction, counts and logs nothing, and runs its deferred
    calls. *)
Theorem end_of_buffer_closes_stream (a : service.airGapBatchBuffer B)
    (ctx : context.Context) batch ackFn (e : err) (b' : B)
    (w : world) (rest : list answer) :
  errors.Is (Some e) (Some ErrEndOfBuffer) = true ->
  service.ReadBatch (service.b a) ctx = Some ((batch, ackFn, Some e), b') ->
  (fun r => as_answer (fst r)) <$> service.Read a ctx
  = Some (Some (AReadRet (ReadErr ErrTypeClosed))) /\
  (script w = AReadRet (ReadErr ErrTypeClosed) :: rest ->
   events outputLoop w
   = [ERead closeNowCtx; EReadRet (ReadErr ErrTypeClosed)] ++ out_deferred /\
   result outputLoop w = Val tt).
Proof.
  intros He Hread. split.
  - unfold service.Read. by rewrite Hread, He.
  - intros Hs.
    by destruct (outputLoop_quiet_first w ErrTypeClosed rest eq_refl Hs)
      as (? & ? & _).
Qed.

End adapter_more.

(** ** These properties on concrete runs *)

Section concrete_more.
Import examples examples2.

Lemma outputLoop_ack_error_witness :
  events outputLoop ack_closed
  = take 8 (events outputLoop ack_closed)
    ++ EAck closed_ack closeNowCtx None
    :: drop 9 (events outputLoop ack_closed) /\
  (closeNowCtx = closeNowCtx /\
   exists rest,
     drop 9 (events outputLoop ack_closed)
     = match closed_ack closeNowCtx None with
       | None => []
       | Some ae =>
           EIncr "ack.error" 1
           :: (if bool_decide (ae = ErrTypeClosed) then []
               else [EErrorf "Failed to ack buffer message: %v\n" (Some ae)])
       end ++ ERead closeNowCtx :: rest).
Proof.
  split; [reflexivity|].
  apply (outputLoop_ack_error ack_closed
           (take 8 (events outputLoop ack_closed)) closed_ack closeNowCtx None
           (drop 9 (events outputLoop ack_closed))).
  reflexivity.
Defined.

Lemma outputLoop_one_in_flight_witness :
  events outputLoop two_deliveries
  = take 14 (events outputLoop two_deliveries)
    ++ ESendOut tr_out2 :: drop 15 (events outputLoop two_deliveries) /\
  (count is_send_out (take 14 (events outputLoop two_deliveries))
   = count is_recv_res (take 14 (events outputLoop two_deliveries)) /\
   count is_send_out (take 14 (events outputLoop two_deliveries))
   = count is_ack (take 14 (events outputLoop two_deliveries))).
Proof.
  split; [reflexivity|].
  apply (outputLoop_one_in_flight two_deliveries
           (take 14 (events outputLoop two_deliveries)) tr_out2
           (drop 15 (events outputLoop two_deliveries))).
  reflexivity.
Defined.

Lemma airGap_Read_success_witness :
  service.ReadBatch (service.b two_ready) context.Background
  = Some ((Some <$> ready_messages, echo, None),
          {| reads := []; written := [] |}) /\
  exists ackFunc,
    service.Read two_ready context.Background
    = Some ((Some (service.part <$> ready_messages), Some ackFunc,
             None),
            {| service.b := {| reads := []; written := [] |} |}) /\
    length (service.part <$> ready_messages)
    = length ready_messages /\
    forall c aerr, ackFunc c aerr = echo c aerr.
Proof.
  split; [reflexivity|].
  apply (airGap_Read_success two_ready context.Background
           ready_messages echo {| reads := []; written := [] |}).
  reflexivity.
Defined.

Lemma airGap_Read_nil_pointer_witness :
  None ∈ nil_batch /\
  service.ReadBatch (service.b nil_ready) context.Background
  = Some ((nil_batch, echo, None),
          {| reads := []; written := [] |}) /\
  service.Read nil_ready context.Background = None.
Proof.
  assert (Hnil : None ∈ nil_batch)
    by (apply list_elem_of_In; simpl; auto).
  split_and!; [exact Hnil|reflexivity|].
  apply (airGap_Read_nil_pointer nil_ready context.Background
           nil_batch echo {| reads := []; written := [] |});
    [exact Hnil|reflexivity].
Defined.

Lemma airGap_Write_then_Read_witness :
  service.ReadBatch (service.b written_back) context.Background
  = Some ((service.Write_parts msg12, echo, None),
          {| reads := []; written := [] |}) /\
  exists parts ackFunc,
    service.Read written_back context.Background
    = Some ((Some parts, Some ackFunc, None),
            {| service.b := {| reads := []; written := [] |} |}) /\
    parts = (fun p => service.part (service.Copy (service.newMessageFromPart p)))
            <$> msg12 /\
    ((forall p, service.part (service.newMessageFromPart p) = p) ->
     (forall sm, service.part (service.Copy sm) = service.part sm) ->
     parts = msg12).
Proof.
  split; [reflexivity|].
  apply (airGap_Write_then_Read written_back context.Background msg12 echo
           {| reads := []; written := [] |}).
  reflexivity.
Defined.

Lemma airGap_Read_contract_witness :
  service.Read at_end context.Background
  = Some (closed_result,
          {| service.b := {| reads := []; written := [] |} |}) /\
  ((exists msg ackFunc, closed_result = (Some msg, Some ackFunc, None)) \/
   (exists e, closed_result = (None, None, Some e) /\
              errors.Is (Some e) (Some ErrEndOfBuffer) = false)).
Proof.
  split; [reflexivity|].
  apply (airGap_Read_contract at_end context.Background closed_result
           {| service.b := {| reads := []; written := [] |} |}).
  reflexivity.
Defined.

Lemma end_of_buffer_closes_stream_witness :
  errors.Is (Some (Wrapped "disk" ErrEndOfBuffer)) (Some ErrEndOfBuffer) = true /\
  service.ReadBatch (service.b at_end) context.Background
  = Some (([], echo, Some (Wrapped "disk" ErrEndOfBuffer)),
          {| reads := []; written := [] |}) /\
  (fun r => as_answer (fst r)) <$> service.Read at_end context.Background
  = Some (Some (AReadRet (ReadErr ErrTypeClosed))) /\
  (script closed_first = AReadRet (ReadErr ErrTypeClosed) :: [] ->
   events outputLoop closed_first
   = [ERead closeNowCtx; EReadRet (ReadErr ErrTypeClosed)] ++ out_deferred /\
   result outputLoop closed_first = Val tt).
Proof.
  split_and!; [reflexivity|reflexivity|..];
    apply (end_of_buffer_closes_stream at_end context.Background [] echo
             (Wrapped "disk" ErrEndOfBuffer) {| reads := []; written := [] |}
             closed_first []); reflexivity.
Defined.

End concrete_more.
